(** * Bayesian neighbourhood smoothing (src/prob_prior_neigh.cpp)

    A shallow embedding of the three functions of the file:
    [build_neigh] (window scan around one cell), [bayes_estimator_pixel]
    (logit blend of a cell with its neighbourhood) and
    [bayes_estimator_class] (the exported pass over the raster).

    Numbers.
    - C++ [int] values (indices, dimensions, window weights) are integers
      of [Z].  Signed overflow is undefined in C++, so the model covers
      the runs without it: the indices of the scan stay within [int] when
      the raster's and the window's dimension sum to at most 2^31 (see
      [scan_index_in_int_range]), and the size of the output buffer,
      [nrows * ncols], fits an [int] for a raster of fewer than 2^31
      cells.  A second embedding of the scan and of the pass
      ([build_neigh_checked], [bayes_estimator_class_checked]) checks
      every [int] operation and every access, and faults where the C++ is
      undefined; what is said of the length of the output is said of it.
    - C++ [double] is an abstract carrier with the operations the file
      uses ([DoubleOps]).  The scan and the pass are proved for every such
      carrier.  The arithmetic facts of the estimator are proved over
      [xreal], the reals extended with NaN and the two infinities, with
      the IEEE 754 rules for the special values and exact arithmetic on
      finite values (no rounding, no overflow, one zero).  A second
      carrier is binary64 itself, with its rounding ([b64_ops] and its
      variants for the formats of [long double]); it serves to evaluate
      the program on concrete numbers. *)

From Stdlib Require Import ZArith List Lia Bool Permutation.
From Stdlib Require Import Reals Lra.
From Stdlib Require Import Floats.
From stdpp Require Import base list numbers.

Local Open Scope Z_scope.

(** ** Matrices as Rcpp stores them *)

(** An Rcpp matrix: its dimensions and the flat column-major storage. *)
Record Matrix (A : Type) := mkMatrix {
  mat_nrow : nat;
  mat_ncol : nat;
  mat_data : list A
}.
Arguments mkMatrix {A} _ _ _.
Arguments mat_nrow {A} _.
Arguments mat_ncol {A} _.
Arguments mat_data {A} _.

(** [m.nrow()], [m.rows()] and [m.ncol()], [m.cols()]: an [int]. *)
Definition nrow {A} (m : Matrix A) : Z := Z.of_nat (mat_nrow m).
Definition ncol {A} (m : Matrix A) : Z := Z.of_nat (mat_ncol m).

(** [m(i, j)]: element [i + nrow * j] of the storage.  Rcpp does not check
    the bounds; [d] stands for what lies outside the storage, which the
    program never reads. *)
Definition mat_at {A} (d : A) (m : Matrix A) (i j : Z) : A :=
  nth (Z.to_nat (i + nrow m * j)) (mat_data m) d.

(** ** The operations on [double] the program uses *)

Class DoubleOps (double : Type) := {
  NAN : double;                         (* the macro NAN *)
  isnan : double -> bool;               (* std::isnan *)
  isfinite : double -> bool;            (* R_FINITE *)
  of_int : Z -> double;                 (* conversion of an integer *)
  fadd : double -> double -> double;
  fsub : double -> double -> double;
  fmul : double -> double -> double;
  fdiv : double -> double -> double;
  flog : double -> double;              (* log *)
  fpow2 : double -> double;             (* std::pow(x, 2.0) *)
  (* long double, in which Rcpp accumulates the mean *)
  ldouble : Type;
  widen : double -> ldouble;            (* double to long double *)
  narrow : ldouble -> double;           (* the cast (double) *)
  l_of_int : Z -> ldouble;              (* conversion of an integer *)
  ladd : ldouble -> ldouble -> ldouble;
  lsub : ldouble -> ldouble -> ldouble;
  ldiv : ldouble -> ldouble -> ldouble
}.

Section Program.

Context {double : Type} `{DoubleOps double}.

Definition NumericMatrix := Matrix double.
Definition IntegerMatrix := Matrix Z.
Definition NumericVector := list double.

Definition data_at (data : NumericMatrix) (i j : Z) : double :=
  mat_at NAN data i j.
Definition window_at (window : IntegerMatrix) (k l : Z) : Z :=
  mat_at 0 window k l.

(** *** build_neigh *)

(** The test of the [if] at one window position, with its short-circuit
    order. *)
Definition neigh_test (data : NumericMatrix) (window : IntegerMatrix)
    (i j k l : Z) : bool :=
  let data_i := i + k - Z.quot (nrow window) 2 in
  let data_j := j + l - Z.quot (ncol window) 2 in
  (0 <=? data_i) && (0 <=? data_j) &&
  (data_i <? nrow data) && (data_j <? ncol data) &&
  (0 <? window_at window k l) &&
  negb (isnan (data_at data data_i data_j)).

(** The value pushed at one window position. *)
Definition neigh_value (data : NumericMatrix) (window : IntegerMatrix)
    (i j k l : Z) : double :=
  let data_i := i + k - Z.quot (nrow window) 2 in
  let data_j := j + l - Z.quot (ncol window) 2 in
  fmul (data_at data data_i data_j) (of_int (window_at window k l)).

(** The two loops, threading the vector [neigh]; [push_back] appends. *)
Definition build_neigh (data : NumericMatrix) (window : IntegerMatrix)
    (i j : Z) : NumericVector :=
  foldl (fun neigh k =>
    foldl (fun neigh l =>
      if neigh_test data window i j k l
      then neigh ++ [neigh_value data window i j k l]
      else neigh)
      neigh (seqZ 0 (ncol window)))
    [] (seqZ 0 (nrow window)).

(** *** Rcpp sugar: mean and var *)

(** Modelled from the spec: [mean] and [var] are Rcpp sugar, whose code is
    not under src/.  The spec gives their meaning (4.2, steps 4 and 6, and
    the design notes): the mean of the sequence, and the unbiased sample
    variance, which divides by count - 1.  The two definitions follow the
    way Rcpp computes them.  The mean accumulates the sum in a
    [long double], divides it by the count and, when the quotient cast to
    [double] is finite, adds the mean of the residuals in a second pass;
    the result is cast to [double].  The variance sums, in a [double], the
    squared deviations from that mean and divides by count - 1.
    [mean_is_spec_mean] and [var_is_spec_variance] relate them to the
    wording of the spec, [spec_mean] and [spec_variance]. *)
Definition mean (x : NumericVector) : double :=
  let n := l_of_int (Z.of_nat (length x)) in
  let s := ldiv (foldl (fun s xi => ladd s (widen xi)) (l_of_int 0) x) n in
  if isfinite (narrow s)
  then let t := foldl (fun t xi => ladd t (lsub (widen xi) s))
                      (l_of_int 0) x in
       narrow (ladd s (ldiv t n))
  else narrow s.

Definition var (x : NumericVector) : double :=
  let average := mean x in
  let sum := foldl (fun sum xi => fadd sum (fpow2 (fsub xi average)))
                   (of_int 0) x in
  fdiv sum (of_int (Z.of_nat (length x) - 1)).

(** *** bayes_estimator_pixel *)

(** [log(neigh / (10000 - neigh))], element by element. *)
Definition logit (n : double) : double :=
  flog (fdiv n (fsub (of_int 10000) n)).

Definition bayes_estimator_pixel (p : double) (neigh : NumericVector)
    (variance : double) : double :=
  if isnan p then NAN
  else
    let log_neigh := map logit neigh in
    let x := flog (fdiv p (fsub (of_int 10000) p)) in
    let v := var log_neigh in
    let w1 := fdiv v (fadd variance v) in
    let w2 := fdiv variance (fadd variance v) in
    let sx := fadd (fmul w1 x) (fmul w2 (mean log_neigh)) in
    sx.

(** *** bayes_estimator_class *)

(** The state of the two loops: the buffer [result] and the counter [k].
    [result(k++) = v] writes slot [k] and advances the counter. *)
Definition class_step (data : NumericMatrix) (window : IntegerMatrix)
    (variance : double) (i : Z) (st : NumericVector * Z) (j : Z)
    : NumericVector * Z :=
  let '(result, k) := st in
  (<[Z.to_nat k :=
       bayes_estimator_pixel (data_at data i j)
                             (build_neigh data window i j) variance]> result,
   k + 1).

(** [nrows * ncols] and [k] are integers of [Z] here; their range as C++
    [int] is the matter of [bayes_estimator_class_checked]. *)
Definition bayes_estimator_class (data : NumericMatrix)
    (window : IntegerMatrix) (variance : double) : NumericVector :=
  let nrows := nrow data in
  let ncols := ncol data in
  let result := replicate (Z.to_nat (nrows * ncols)) (of_int 0) in
  let k := 0 in
  fst (foldl (fun st i =>
               foldl (class_step data window variance i) st (seqZ 0 ncols))
             (result, k) (seqZ 0 nrows)).

End Program.

(** ** The spec's wording of the estimate *)

Section SpecWording.

Context {double : Type} `{DoubleOps double}.

(** The sum of a sequence. *)
Definition total (x : list double) : double := fold_right fadd (of_int 0) x.

(** The mean: the sum divided by the count. *)
Definition spec_mean (x : list double) : double :=
  fdiv (total x) (of_int (Z.of_nat (length x))).

(** The unbiased sample variance: the sum of the squared deviations from
    the mean, divided by count - 1. *)
Definition spec_variance (x : list double) : double :=
  let m := spec_mean x in
  fdiv (total (map (fun xi => fmul (fsub xi m) (fsub xi m)) x))
       (of_int (Z.of_nat (length x) - 1)).

(** [ln (n / (10000 - n))]. *)
Definition spec_logit (n : double) : double :=
  flog (fdiv n (fsub (of_int 10000) n)).

(** Steps 2 to 6 of the estimator as the spec words them. *)
Definition spec_blend (center_value : double) (neighbors : list double)
    (variance : double) : double :=
  let L := map spec_logit neighbors in
  let x := spec_logit center_value in
  let v := spec_variance L in
  let w1 := fdiv v (fadd variance v) in
  let w2 := fdiv variance (fadd variance v) in
  fadd (fmul w1 x) (fmul w2 (spec_mean L)).

(** The output of one cell:
    estimate(raster(i,j), gather(raster, window, i, j), variance). *)
Definition estimate_at (data : Matrix double) (window : Matrix Z)
    (variance : double) (i j : Z) : double :=
  bayes_estimator_pixel (data_at data i j) (build_neigh data window i j)
                        variance.

(** The window positions in scan order (rows outside, columns inside). *)
Definition window_positions (window : Matrix Z) : list (Z * Z) :=
  k ← seqZ 0 (nrow window); (fun l => (k, l)) <$> seqZ 0 (ncol window).

(** The positions of the window that pass the test of [build_neigh]. *)
Definition selected (data : Matrix double) (window : Matrix Z) (i j : Z)
    : list (Z * Z) :=
  List.filter (fun kl => neigh_test data window i j kl.1 kl.2)
              (window_positions window).

(** Two rasters that a program reading them through [nrow], [ncol] and
    the cells within the bounds cannot tell apart. *)
Definition same_raster (d1 d2 : Matrix double) : Prop :=
  nrow d1 = nrow d2 /\ ncol d1 = ncol d2 /\
  forall i j, 0 <= i < nrow d1 -> 0 <= j < ncol d1 ->
    data_at d1 i j = data_at d2 i j.

(** The same for two windows. *)
Definition same_window (w1 w2 : Matrix Z) : Prop :=
  nrow w1 = nrow w2 /\ ncol w1 = ncol w2 /\
  forall k l, 0 <= k < nrow w1 -> 0 <= l < ncol w1 ->
    window_at w1 k l = window_at w2 k l.

(** Every weight of the window multiplied by [c]. *)
Definition scale_window (c : Z) (window : Matrix Z) : Matrix Z :=
  mkMatrix (mat_nrow window) (mat_ncol window)
           (map (Z.mul c) (mat_data window)).

End SpecWording.

(** ** Exact arithmetic with the IEEE special values *)

Inductive xreal : Type :=
  | XNaN
  | XInf (neg : bool)
  | XFin (r : R).

Definition Rneg (r : R) : bool := if Rlt_dec r 0 then true else false.
Definition Rzero (r : R) : bool := if Req_dec_T r 0 then true else false.

Definition xisnan (a : xreal) : bool :=
  match a with XNaN => true | _ => false end.

Definition xisfinite (a : xreal) : bool :=
  match a with XFin _ => true | _ => false end.

Definition xadd (a b : xreal) : xreal :=
  match a, b with
  | XNaN, _ | _, XNaN => XNaN
  | XInf s, XInf t => if Bool.eqb s t then XInf s else XNaN
  | XInf s, XFin _ => XInf s
  | XFin _, XInf t => XInf t
  | XFin r, XFin q => XFin (r + q)
  end.

Definition xsub (a b : xreal) : xreal :=
  match a, b with
  | XNaN, _ | _, XNaN => XNaN
  | XInf s, XInf t => if Bool.eqb s t then XNaN else XInf s
  | XInf s, XFin _ => XInf s
  | XFin _, XInf t => XInf (negb t)
  | XFin r, XFin q => XFin (r - q)
  end.

Definition xmul (a b : xreal) : xreal :=
  match a, b with
  | XNaN, _ | _, XNaN => XNaN
  | XInf s, XInf t => XInf (xorb s t)
  | XInf s, XFin r => if Rzero r then XNaN else XInf (xorb s (Rneg r))
  | XFin r, XInf t => if Rzero r then XNaN else XInf (xorb (Rneg r) t)
  | XFin r, XFin q => XFin (r * q)
  end.

(** A zero divisor counts as +0: the zero divisors of this program come
    from [a - a] and [a + (-a)], which IEEE rounds to +0. *)
Definition xdiv (a b : xreal) : xreal :=
  match a, b with
  | XNaN, _ | _, XNaN => XNaN
  | XInf _, XInf _ => XNaN
  | XInf s, XFin r => XInf (xorb s (Rneg r))
  | XFin _, XInf _ => XFin 0
  | XFin r, XFin q =>
      if Rzero q then (if Rzero r then XNaN else XInf (Rneg r))
      else XFin (r / q)
  end.

Definition xlog (a : xreal) : xreal :=
  match a with
  | XNaN => XNaN
  | XInf s => if s then XNaN else XInf false
  | XFin r => if Rneg r then XNaN
              else if Rzero r then XInf true
              else XFin (ln r)
  end.

Definition xpow2 (a : xreal) : xreal :=
  match a with
  | XNaN => XNaN
  | XInf _ => XInf false
  | XFin r => XFin (r * r)
  end.

#[export] Instance xreal_ops : DoubleOps xreal := {|
  NAN := XNaN;
  isnan := xisnan;
  isfinite := xisfinite;
  of_int := fun z => XFin (IZR z);
  fadd := xadd;
  fsub := xsub;
  fmul := xmul;
  fdiv := xdiv;
  flog := xlog;
  fpow2 := xpow2;
  ldouble := xreal;
  widen := fun a => a;
  narrow := fun a => a;
  l_of_int := fun z => XFin (IZR z);
  ladd := xadd;
  lsub := xsub;
  ldiv := xdiv
|}.

(** ** Binary64 arithmetic *)

(** The conversion of an [int] to [double], exact on the range of [int]. *)
Definition b64_of_int (z : Z) : float :=
  match z with
  | Z0 => PrimFloat.zero
  | Zpos _ => PrimFloat.of_uint63 (Uint63.of_Z z)
  | Zneg _ => PrimFloat.opp (PrimFloat.of_uint63 (Uint63.of_Z (- z)))
  end.

(** The natural logarithm at the four arguments at which the estimator is
    evaluated on binary64 numbers below: 1, 1000/9000, 2000/8000 and
    6000/4000, each with the binary64 number nearest to its logarithm,
    (0, -2.1972245773362196, -1.3862943611198906, 0.4054651081081644),
    which is what the C library returns there. *)
Definition log_table : list (float * float) :=
  [ (0x1p+0,               0x0p+0);
    (0x1.c71c71c71c71cp-4, -0x1.193ea7aad030bp+1);
    (0x1p-2,               -0x1.62e42fefa39efp+0);
    (0x1.8p+0,             0x1.9f323ecbf984cp-2) ]%float.

(** [log] on binary64, as far as tabulated; no other argument is used. *)
Definition b64_log (x : float) : float :=
  match List.find (fun e => PrimFloat.eqb x e.1) log_table with
  | Some e => e.2
  | None => PrimFloat.nan
  end.

(** [long double] in the format of precision [prec] and exponent bound
    [emax]: a [double] widens exactly, and the cast back rounds to the
    nearest binary64 number. *)
Definition b64_widen (prec emax : Z) (x : float) : spec_float :=
  match Prim2SF x with
  | S754_finite s m e => binary_round prec emax s m e
  | y => y
  end.

Definition b64_narrow (y : spec_float) : float :=
  SF2Prim match y with
          | S754_finite s m e => binary_round 53 1024 s m e
          | _ => y
          end.

(** Binary64 with round-to-nearest; [std::pow(x, 2.0)] is the rounded
    square.  [long double] has the format ([prec], [emax]). *)
Definition b64_ops_with (prec emax : Z) : DoubleOps float := {|
  NAN := PrimFloat.nan;
  isnan := PrimFloat.is_nan;
  isfinite := PrimFloat.is_finite;
  of_int := b64_of_int;
  fadd := PrimFloat.add;
  fsub := PrimFloat.sub;
  fmul := PrimFloat.mul;
  fdiv := PrimFloat.div;
  flog := b64_log;
  fpow2 := fun x => PrimFloat.mul x x;
  ldouble := spec_float;
  widen := b64_widen prec emax;
  narrow := b64_narrow;
  l_of_int := fun z => binary_normalize prec emax z 0 false;
  ladd := SFadd prec emax;
  lsub := SFsub prec emax;
  ldiv := SFdiv prec emax
|}.

(** The three formats of [long double] in use: the 80-bit format of the
    x87 unit (x86 with GCC or Clang), binary128 (AArch64 and others on
    Linux) and binary64 itself (MSVC, and Clang on Apple silicon). *)
Definition b64_x87_ops : DoubleOps float := b64_ops_with 64 16384.
Definition b64_quad_ops : DoubleOps float := b64_ops_with 113 16384.
#[export] Instance b64_ops : DoubleOps float := b64_ops_with 53 1024.

(** ** The inputs of the two scenarios *)

(** A 3 x 3 raster of 5000 with the missing value at (1,1). *)
Definition raster_hole : Matrix xreal :=
  mkMatrix 3 3 [XFin 5000; XFin 5000; XFin 5000;
                XFin 5000; XNaN;      XFin 5000;
                XFin 5000; XFin 5000; XFin 5000].

(** The full 3 x 3 window of ones. *)
Definition window_ones : Matrix Z := mkMatrix 3 3 (replicate 9 1).

(** A raster of 65536 x 32768 cells, 2^31 in all, every one 5000. *)
Definition raster_large : Matrix xreal :=
  mkMatrix (Z.to_nat 65536) (Z.to_nat 32768)
           (replicate (Z.to_nat 65536 * Z.to_nat 32768) (XFin 5000)).

(** A 2 x 2 raster of 5000 and the plus-shaped 3 x 3 window. *)
Definition raster_flat : Matrix xreal :=
  mkMatrix 2 2 [XFin 5000; XFin 5000; XFin 5000; XFin 5000].
Definition window_plus : Matrix Z :=
  mkMatrix 3 3 [0; 1; 0;
                1; 1; 1;
                0; 1; 0].

(** The raster with the hole and a raster of one cell, on binary64. *)
Definition raster_hole_b64 : Matrix float :=
  mkMatrix 3 3 [5000; 5000; 5000;
                5000; PrimFloat.nan; 5000;
                5000; 5000; 5000]%float.
Definition raster_single_b64 : Matrix float := mkMatrix 1 1 [5000%float].

(** A 1 x 2 raster of 1000, on binary64. *)
Definition raster_tenth_b64 : Matrix float := mkMatrix 1 2 [1000; 1000]%float.

(** A 1 x 2 raster of 2500 and the 1 x 3 window of ones. *)
Definition raster_quarter : Matrix xreal := mkMatrix 1 2 [XFin 2500; XFin 2500].
Definition window_row : Matrix Z := mkMatrix 1 3 [1; 1; 1].

(** ** Runs with their faults *)

(** What C++ leaves undefined in this program: an [int] result outside
    the range of [int], and an index outside a matrix or a vector (Rcpp
    does not check it). *)
Inductive fault : Type := SignedOverflow | OutOfBounds.

Inductive run (A : Type) : Type :=
  | Ok (a : A)
  | Fault (f : fault).
Arguments Ok {A} _.
Arguments Fault {A} _.

#[export] Instance run_bind : MBind run := fun A B f r =>
  match r with
  | Ok a => f a
  | Fault e => Fault e
  end.

Fixpoint foldM {A B} (f : A -> B -> run A) (a : A) (l : list B) : run A :=
  match l with
  | [] => Ok a
  | x :: l => a' ← f a x; foldM f a' l
  end.

(** The range of a 32-bit [int]. *)
Definition in_int (z : Z) : bool := (- 2 ^ 31 <=? z) && (z <? 2 ^ 31).

Definition int_add (a b : Z) : run Z :=
  if in_int (a + b) then Ok (a + b) else Fault SignedOverflow.
Definition int_sub (a b : Z) : run Z :=
  if in_int (a - b) then Ok (a - b) else Fault SignedOverflow.
Definition int_mul (a b : Z) : run Z :=
  if in_int (a * b) then Ok (a * b) else Fault SignedOverflow.

(** A matrix whose storage has the size its dimensions announce. *)
Definition well_formed {A} (m : Matrix A) : Prop :=
  length (mat_data m) = (mat_nrow m * mat_ncol m)%nat.

(** [m(i, j)] with the check Rcpp leaves out. *)
Definition mat_get {A} (m : Matrix A) (i j : Z) : run A :=
  if (0 <=? i) && (i <? nrow m) && (0 <=? j) && (j <? ncol m)
  then match mat_data m !! Z.to_nat (i + nrow m * j) with
       | Some a => Ok a
       | None => Fault OutOfBounds
       end
  else Fault OutOfBounds.

(** [v(k) = a] with the check Rcpp leaves out. *)
Definition vec_set {A} (v : list A) (k : Z) (a : A) : run (list A) :=
  if (0 <=? k) && (k <? Z.of_nat (length v))
  then Ok (<[Z.to_nat k := a]> v)
  else Fault OutOfBounds.

Section CheckedProgram.

Context {double : Type} `{DoubleOps double}.

(** The body of the inner loop of [build_neigh], every [int] operation
    and every access checked, the conditions of the [if] evaluated from
    left to right and no further than needed. *)
Definition neigh_step_checked (data : Matrix double) (window : Matrix Z)
    (i j k : Z) (neigh : list double) (l : Z) : run (list double) :=
  ik ← int_add i k;
  data_i ← int_sub ik (Z.quot (nrow window) 2);
  jl ← int_add j l;
  data_j ← int_sub jl (Z.quot (ncol window) 2);
  if (0 <=? data_i) && (0 <=? data_j) &&
     (data_i <? nrow data) && (data_j <? ncol data)
  then
    w ← mat_get window k l;
    if 0 <? w
    then
      d ← mat_get data data_i data_j;
      if negb (isnan d)
      then
        d' ← mat_get data data_i data_j;
        w' ← mat_get window k l;
        Ok (neigh ++ [fmul d' (of_int w')])
      else Ok neigh
    else Ok neigh
  else Ok neigh.

Definition build_neigh_checked (data : Matrix double) (window : Matrix Z)
    (i j : Z) : run (list double) :=
  foldM (fun neigh k =>
           foldM (neigh_step_checked data window i j k) neigh
                 (seqZ 0 (ncol window)))
        [] (seqZ 0 (nrow window)).

(** The body of the inner loop of [bayes_estimator_class], on the buffer
    [result] and the counter [k]. *)
Definition class_step_checked (data : Matrix double) (window : Matrix Z)
    (variance : double) (i : Z) (st : list double * Z) (j : Z)
    : run (list double * Z) :=
  p ← mat_get data i j;
  neigh ← build_neigh_checked data window i j;
  result ← vec_set st.1 st.2 (bayes_estimator_pixel p neigh variance);
  k ← int_add st.2 1;
  Ok (result, k).

Definition bayes_estimator_class_checked (data : Matrix double)
    (window : Matrix Z) (variance : double) : run (list double) :=
  size ← int_mul (nrow data) (ncol data);
  st ← foldM (fun st i =>
                foldM (class_step_checked data window variance i) st
                      (seqZ 0 (ncol data)))
             (replicate (Z.to_nat size) (of_int 0), 0)
             (seqZ 0 (nrow data));
  Ok st.1.

(** The window positions of positive weight, in scan order. *)
Definition positive_weights (window : Matrix Z) : list (Z * Z) :=
  List.filter (fun kl => 0 <? window_at window kl.1 kl.2)
              (window_positions window).

(** Two rasters of the same shape that agree on the cells the window
    centred on (i, j) covers. *)
Definition same_footprint (d1 d2 : Matrix double) (window : Matrix Z)
    (i j : Z) : Prop :=
  nrow d1 = nrow d2 /\ ncol d1 = ncol d2 /\
  forall k l, 0 <= k < nrow window -> 0 <= l < ncol window ->
    let data_i := i + k - nrow window `div` 2 in
    let data_j := j + l - ncol window `div` 2 in
    0 <= data_i < nrow d1 -> 0 <= data_j < ncol d1 ->
    data_at d1 data_i data_j = data_at d2 data_i data_j.

End CheckedProgram.

(** The window with every negative weight replaced by 0. *)
Definition clamp_window (window : Matrix Z) : Matrix Z :=
  mkMatrix (mat_nrow window) (mat_ncol window)
           (map (Z.max 0) (mat_data window)).

(** ** Values of the exact model *)

(** A value strictly between 0 and 10000, where the transform is finite. *)
Definition in_scale (a : xreal) : Prop :=
  match a with
  | XFin r => (0 < r < 10000)%R
  | _ => False
  end.

(** The transform, the mean and the sample variance on real numbers. *)
Definition logit_R (r : R) : R := ln (r / (10000 - r)).
Definition sum_R (rs : list R) : R := fold_right Rplus 0%R rs.
Definition mean_R (rs : list R) : R := (sum_R rs / INR (length rs))%R.
Definition var_R (rs : list R) : R :=
  (sum_R (map (fun r => (r - mean_R rs) * (r - mean_R rs)) rs)
   / (INR (length rs) - 1))%R.

(** The real number under a finite value (0 elsewhere). *)
Definition to_R (a : xreal) : R :=
  match a with XFin r => r | _ => 0%R end.

Definition xneg (a : xreal) : xreal :=
  match a with
  | XNaN => XNaN
  | XInf s => XInf (negb s)
  | XFin r => XFin (- r)
  end.

(** * The scan of the window *)

Section ScanFacts.

Context {double : Type} `{DoubleOps double}.

(** A loop that appends the value of every element passing a test gathers
    the filtered elements in order. *)
Lemma foldl_push_back {A} (test : A -> bool) (value : A -> double)
    (xs : list A) (acc : list double) :
  foldl (fun neigh x => if test x then neigh ++ [value x] else neigh) acc xs
  = acc ++ map value (List.filter test xs).
Proof.
  revert acc. induction xs as [|x xs IH]; intros acc; simpl.
  - by rewrite app_nil_r.
  - rewrite IH. destruct (test x); simpl; [|done].
    by rewrite <- app_assoc.
Qed.

(** The rows of the scan, one after the other. *)
Lemma foldl_rows (data : Matrix double) (window : Matrix Z) (i j : Z)
    (ks : list Z) (acc : list double) :
  foldl (fun neigh k =>
    foldl (fun neigh l =>
      if neigh_test data window i j k l
      then neigh ++ [neigh_value data window i j k l]
      else neigh)
      neigh (seqZ 0 (ncol window))) acc ks
  = acc ++ map (fun kl => neigh_value data window i j kl.1 kl.2)
             (List.filter (fun kl => neigh_test data window i j kl.1 kl.2)
                (k ← ks; (fun l => (k, l)) <$> seqZ 0 (ncol window))).
Proof.
  revert acc. induction ks as [|k ks IH]; intros acc; simpl.
  - by rewrite app_nil_r.
  - rewrite IH, (foldl_push_back (neigh_test data window i j k)
                                 (neigh_value data window i j k)).
    rewrite List.filter_app, map_app, <- app_assoc. f_equal. f_equal.
    generalize (seqZ 0 (ncol window)) as ls.
    induction ls as [|l ls IHl]; simpl; [done|].
    destruct (neigh_test data window i j k l); simpl; by rewrite IHl.
Qed.

(** [build_neigh] is the scan order of the window, filtered by the test of
    the [if], mapped to the pushed values. *)
Lemma build_neigh_filter (data : Matrix double) (window : Matrix Z) (i j : Z) :
  build_neigh data window i j
  = map (fun kl => neigh_value data window i j kl.1 kl.2)
        (selected data window i j).
Proof. unfold build_neigh. by rewrite foldl_rows. Qed.

Lemma elem_of_window_positions (window : Matrix Z) (k l : Z) :
  (k, l) ∈ window_positions window
  <-> 0 <= k < nrow window /\ 0 <= l < ncol window.
Proof.
  unfold window_positions. rewrite list_elem_of_bind. split.
  - intros (k' & Hl & Hk). apply list_elem_of_fmap in Hl as (l' & Heq & Hl).
    inversion Heq; subst. apply elem_of_seqZ in Hk, Hl. lia.
  - intros [Hk Hl]. exists k. split.
    + apply list_elem_of_fmap. exists l. split; [done|].
      apply elem_of_seqZ. lia.
    + apply elem_of_seqZ. lia.
Qed.

Lemma NoDup_window_positions (window : Matrix Z) :
  NoDup (window_positions window).
Proof.
  unfold window_positions. apply NoDup_bind.
  - intros k1 k2 [k l] _ _ H1 H2.
    apply list_elem_of_fmap in H1 as (? & E1 & _).
    apply list_elem_of_fmap in H2 as (? & E2 & _). congruence.
  - intros k _. apply NoDup_fmap_2; [|apply NoDup_seqZ].
    intros ? ? ?; congruence.
  - apply NoDup_seqZ.
Qed.

(** The integer division of the centre: C++ truncates, which is the floor
    on a dimension. *)
Lemma half_dim (n : nat) : Z.quot (Z.of_nat n) 2 = Z.of_nat n `div` 2.
Proof. apply Z.quot_div_nonneg; lia. Qed.

(** The test of the [if], in the words of the spec. *)
Lemma neigh_test_true (data : Matrix double) (window : Matrix Z) (i j k l : Z) :
  neigh_test data window i j k l = true
  <-> 0 <= i + k - nrow window `div` 2
      /\ 0 <= j + l - ncol window `div` 2
      /\ i + k - nrow window `div` 2 < nrow data
      /\ j + l - ncol window `div` 2 < ncol data
      /\ 0 < window_at window k l
      /\ isnan (data_at data (i + k - nrow window `div` 2)
                             (j + l - ncol window `div` 2)) = false.
Proof.
  unfold neigh_test, nrow, ncol. rewrite !half_dim.
  rewrite !andb_true_iff, negb_true_iff.
  rewrite !Z.leb_le, !Z.ltb_lt. tauto.
Qed.

Lemma elem_of_selected (data : Matrix double) (window : Matrix Z)
    (i j k l : Z) :
  (k, l) ∈ selected data window i j
  <-> (0 <= k < nrow window /\ 0 <= l < ncol window)
      /\ neigh_test data window i j k l = true.
Proof.
  unfold selected. rewrite list_elem_of_In, List.filter_In, <- list_elem_of_In.
  by rewrite elem_of_window_positions.
Qed.

Lemma selected_sublist (data : Matrix double) (window : Matrix Z) (i j : Z) :
  sublist (selected data window i j) (window_positions window).
Proof.
  unfold selected. generalize (window_positions window) as ps.
  induction ps as [|p ps IH]; simpl; [constructor|].
  destruct (neigh_test _ _ _ _ _ _); by constructor.
Qed.

(** Every index the scan computes fits an [int] when the sum of the
    raster's and the window's dimension does. *)
Lemma scan_index_in_int_range (n w i k : Z) :
  0 <= i < n -> 0 <= k < w -> n + w <= 2 ^ 31 ->
  - 2 ^ 31 <= i + k < 2 ^ 31 /\ - 2 ^ 31 <= i + k - Z.quot w 2 < 2 ^ 31.
Proof.
  intros Hi Hk Hb.
  assert (0 <= Z.quot w 2 <= w).
  { rewrite Z.quot_div_nonneg by lia. split; [apply Z.div_pos; lia|].
    apply Z.div_le_upper_bound; lia. }
  lia.
Qed.

(** C2. For every raster, window and target cell, the gathered sequence is
    made of the values raster(data_i, data_j) * window(k, l) of the window
    positions (k, l) that are selected, in scan order and once each; a
    position is selected if and only if data_i = center_row + k - wrows div 2
    and data_j = center_col + l - wcols div 2 satisfy data_i >= 0,
    data_j >= 0, data_i < nrow, data_j < ncol, window(k, l) > 0 and
    raster(data_i, data_j) is not the missing value.  A position of weight
    0 or below is never selected, whatever the raster holds there. *)
Theorem build_neigh_selection (data : Matrix double) (window : Matrix Z)
    (center_row center_col : Z) :
  let data_i k := center_row + k - nrow window `div` 2 in
  let data_j l := center_col + l - ncol window `div` 2 in
  let sel := selected data window center_row center_col in
  build_neigh data window center_row center_col
  = map (fun kl => fmul (data_at data (data_i kl.1) (data_j kl.2))
                        (of_int (window_at window kl.1 kl.2))) sel
  /\ NoDup sel
  /\ sublist sel (window_positions window)
  /\ (forall k l,
        (k, l) ∈ sel
        <-> (0 <= k < nrow window /\ 0 <= l < ncol window)
            /\ 0 <= data_i k /\ 0 <= data_j l
            /\ data_i k < nrow data /\ data_j l < ncol data
            /\ 0 < window_at window k l
            /\ isnan (data_at data (data_i k) (data_j l)) = false)
  /\ (forall k l, window_at window k l <= 0 -> (k, l) ∉ sel).
Proof.
  intros data_i data_j sel.
  assert (Hiff : forall k l,
    (k, l) ∈ sel
    <-> (0 <= k < nrow window /\ 0 <= l < ncol window)
        /\ 0 <= data_i k /\ 0 <= data_j l
        /\ data_i k < nrow data /\ data_j l < ncol data
        /\ 0 < window_at window k l
        /\ isnan (data_at data (data_i k) (data_j l)) = false).
  { intros k l. unfold sel. rewrite elem_of_selected, neigh_test_true. tauto. }
  split; [|split; [|split; [|split]]].
  - rewrite build_neigh_filter. apply map_ext. intros [k l]; simpl.
    unfold neigh_value, data_i, data_j, nrow, ncol. by rewrite !half_dim.
  - eapply sublist_NoDup; [apply NoDup_window_positions|].
    apply selected_sublist.
  - apply selected_sublist.
  - exact Hiff.
  - intros k l Hw Hin. apply Hiff in Hin. lia.
Qed.

(** C10. A cell is its own neighbour: for every window of odd dimensions
    whose centre weight window(wrows div 2, wcols div 2) is positive and
    every cell (i, j) of the raster whose value is not the missing value,
    the gathered sequence of (i, j) contains
    raster(i, j) * window(wrows div 2, wcols div 2). *)
Theorem build_neigh_contains_center (data : Matrix double) (window : Matrix Z)
    (i j : Z) :
  Z.odd (nrow window) = true -> Z.odd (ncol window) = true ->
  0 < window_at window (nrow window `div` 2) (ncol window `div` 2) ->
  0 <= i < nrow data -> 0 <= j < ncol data ->
  isnan (data_at data i j) = false ->
  fmul (data_at data i j)
       (of_int (window_at window (nrow window `div` 2) (ncol window `div` 2)))
  ∈ build_neigh data window i j.
Proof.
  intros Hr Hc Hw Hi Hj Hnan.
  set (kc := nrow window `div` 2). set (lc := ncol window `div` 2).
  assert (Hkc : 0 <= kc < nrow window).
  { unfold kc, nrow in *. destruct (mat_nrow window); [discriminate|].
    split; [apply Z.div_pos; lia | apply Z.div_lt_upper_bound; lia]. }
  assert (Hlc : 0 <= lc < ncol window).
  { unfold lc, ncol in *. destruct (mat_ncol window); [discriminate|].
    split; [apply Z.div_pos; lia | apply Z.div_lt_upper_bound; lia]. }
  rewrite build_neigh_filter. apply list_elem_of_fmap. exists (kc, lc). split.
  - simpl. unfold neigh_value, nrow, ncol. rewrite !half_dim.
    fold (nrow window) (ncol window) kc lc.
    by replace (i + kc - kc) with i by lia; replace (j + lc - lc) with j by lia.
  - apply elem_of_selected. split; [done|]. apply neigh_test_true.
    fold kc lc.
    replace (i + kc - kc) with i by lia. replace (j + lc - lc) with j by lia.
    repeat split; try lia; done.
Qed.

End ScanFacts.

(** * The pass over the raster *)

Section PassFacts.

Context {double : Type} `{DoubleOps double}.

(** One row of the pass writes the estimates of the row into consecutive
    slots, from the counter on. *)
Lemma class_row (data : Matrix double) (window : Matrix Z) (variance : double)
    (i : Z) (js : list Z) (result : list double) (k : Z) :
  0 <= k -> (Z.to_nat k + length js <= length result)%nat ->
  foldl (class_step data window variance i) (result, k) js
  = (take (Z.to_nat k) result
       ++ map (fun j => estimate_at data window variance i j) js
       ++ drop (Z.to_nat k + length js) result,
     k + Z.of_nat (length js)).
Proof.
  revert result k. induction js as [|j js IH]; intros result k Hk Hlen.
  - simpl. rewrite Nat.add_0_r, take_drop. f_equal. lia.
  - simpl in *. fold (estimate_at data window variance i j).
    rewrite IH; [|lia|rewrite length_insert; lia].
    replace (Z.to_nat (k + 1)) with (S (Z.to_nat k)) by lia.
    rewrite (take_S_r _ _ (estimate_at data window variance i j))
      by (apply list_lookup_insert_eq; lia).
    rewrite take_insert_ge by lia.
    rewrite drop_insert_lt by lia.
    rewrite <- app_assoc. simpl. f_equal; [|lia].
    by rewrite Nat.add_succ_r.
Qed.

(** All the rows: the estimates are written row after row. *)
Lemma class_rows (data : Matrix double) (window : Matrix Z) (variance : double)
    (js rs : list Z) (result : list double) (k : Z) :
  0 <= k ->
  (Z.to_nat k + length rs * length js <= length result)%nat ->
  foldl (fun st i => foldl (class_step data window variance i) st js)
        (result, k) rs
  = (take (Z.to_nat k) result
       ++ (i ← rs; map (fun j => estimate_at data window variance i j) js)
       ++ drop (Z.to_nat k + length rs * length js) result,
     k + Z.of_nat (length rs * length js)).
Proof.
  revert result k. induction rs as [|i rs IH]; intros result k Hk Hlen.
  - simpl. rewrite Nat.add_0_r, take_drop. f_equal. lia.
  - change (foldl (fun st i => foldl (class_step data window variance i) st js)
                  (foldl (class_step data window variance i) (result, k) js) rs
            = (take (Z.to_nat k) result
                 ++ (map (fun j => estimate_at data window variance i j) js
                       ++ (i ← rs; map (fun j =>
                             estimate_at data window variance i j) js))
                 ++ drop (Z.to_nat k + length (i :: rs) * length js) result,
               k + Z.of_nat (length (i :: rs) * length js))).
    simpl in Hlen. rewrite class_row by lia.
    set (row := map (fun j => estimate_at data window variance i j) js).
    set (tk := take (Z.to_nat k) result).
    set (dr := drop (Z.to_nat k + length js) result).
    assert (Hrow : length row = length js) by apply length_map.
    assert (Htk : length tk = Z.to_nat k)
      by (unfold tk; rewrite length_take; lia).
    assert (Hdr : length dr = (length result - (Z.to_nat k + length js))%nat)
      by apply length_drop.
    rewrite IH; [|lia|rewrite !length_app; lia].
    replace (Z.to_nat (k + Z.of_nat (length js)))
      with (length (tk ++ row)) by (rewrite length_app; lia).
    rewrite (app_assoc tk row dr), take_app_length, drop_app_add.
    unfold dr. rewrite drop_drop, <- !app_assoc.
    f_equal; [|simpl; lia].
    replace (Z.to_nat k + length (i :: rs) * length js)%nat
      with (Z.to_nat k + length js + length rs * length js)%nat
      by (simpl; lia).
    done.
Qed.

(** The whole pass rs the row-major flattening of the estimates. *)
Lemma bayes_estimator_class_flat (data : Matrix double) (window : Matrix Z)
    (variance : double) :
  bayes_estimator_class data window variance
  = (i ← seqZ 0 (nrow data);
     map (fun j => estimate_at data window variance i j) (seqZ 0 (ncol data))).
Proof.
  unfold bayes_estimator_class.
  rewrite class_rows; [|lia|].
  2:{ rewrite length_replicate, !length_seqZ. unfold nrow, ncol. simpl. nia. }
  simpl. rewrite drop_ge, app_nil_r; [done|].
  rewrite length_replicate, !length_seqZ. unfold nrow, ncol. nia.
Qed.

(** Element [a * w + b] of a concatenation of rows of width [w]. *)
Lemma lookup_bind_rows {A B} (g : A -> list B) (w : nat) (xs : list A)
    (a b : nat) :
  (forall x, length (g x) = w) -> (b < w)%nat ->
  (xs ≫= g) !! (a * w + b)%nat = xs !! a ≫= fun x => g x !! b.
Proof.
  intros Hw Hb. revert a. induction xs as [|x xs IH]; intros a.
  - by destruct a.
  - change ((x :: xs) ≫= g) with (g x ++ (xs ≫= g)). destruct a as [|a].
    + simpl. apply lookup_app_l. rewrite Hw. lia.
    + rewrite lookup_app_r by (rewrite Hw; lia). rewrite Hw.
      replace (S a * w + b - w)%nat with (a * w + b)%nat by lia.
      by rewrite IH.
Qed.

Lemma bayes_estimator_class_length (data : Matrix double) (window : Matrix Z)
    (variance : double) :
  Z.of_nat (length (bayes_estimator_class data window variance))
  = nrow data * ncol data.
Proof.
  rewrite bayes_estimator_class_flat.
  assert (Hlen : forall rs : list Z,
    length (rs ≫= fun i => map (fun j => estimate_at data window variance i j)
                            (seqZ 0 (ncol data)))
    = (length rs * Z.to_nat (ncol data))%nat).
  { induction rs as [|i rs IH]; [done|].
    change ((i :: rs) ≫= ?g) with (g i ++ (rs ≫= g)).
    by rewrite length_app, IH, length_map, length_seqZ. }
  rewrite Hlen, length_seqZ. unfold nrow, ncol. nia.
Qed.

Lemma bayes_estimator_class_lookup (data : Matrix double) (window : Matrix Z)
    (variance : double) (i j : Z) :
  0 <= i < nrow data -> 0 <= j < ncol data ->
  bayes_estimator_class data window variance !! Z.to_nat (i * ncol data + j)
  = Some (estimate_at data window variance i j).
Proof.
  intros Hi Hj. rewrite bayes_estimator_class_flat.
  replace (Z.to_nat (i * ncol data + j))
    with (Z.to_nat i * Z.to_nat (ncol data) + Z.to_nat j)%nat by nia.
  rewrite (lookup_bind_rows _ (Z.to_nat (ncol data)));
    [|intros; by rewrite length_map, length_seqZ|lia].
  rewrite lookup_seqZ_lt by lia. simpl.
  rewrite list_lookup_fmap, lookup_seqZ_lt by lia. simpl.
  by rewrite !Z2Nat.id by lia.
Qed.

(** C3. For every cell (i, j) whose raster value is the missing value
    (not-a-number), the output at that cell is the missing value, and the
    estimator short-circuits: whatever the neighbour sequence and the
    variance are, they do not enter the result. *)
Theorem missing_cell_short_circuits (data : Matrix double) (window : Matrix Z)
    (variance : double) (i j : Z) :
  0 <= i < nrow data -> 0 <= j < ncol data ->
  isnan (data_at data i j) = true ->
  bayes_estimator_class data window variance !! Z.to_nat (i * ncol data + j)
  = Some NAN
  /\ forall (neigh : list double) (variance' : double),
       bayes_estimator_pixel (data_at data i j) neigh variance' = NAN.
Proof.
  intros Hi Hj Hnan.
  assert (Hpix : forall neigh v,
            bayes_estimator_pixel (data_at data i j) neigh v = NAN).
  { intros neigh v. unfold bayes_estimator_pixel. by rewrite Hnan. }
  split; [|exact Hpix].
  rewrite bayes_estimator_class_lookup by done. unfold estimate_at.
  by rewrite Hpix.
Qed.

(** The scan reads the raster and the window only through their
    dimensions and the cells within their bounds. *)
Lemma build_neigh_same (d1 d2 : Matrix double) (w1 w2 : Matrix Z) (i j : Z) :
  same_raster d1 d2 -> same_window w1 w2 ->
  build_neigh d1 w1 i j = build_neigh d2 w2 i j.
Proof.
  intros (Hdr & Hdc & Hd) (Hwr & Hwc & Hw).
  rewrite !build_neigh_filter. unfold selected, window_positions.
  rewrite <- Hwr, <- Hwc.
  assert (Htest : forall kl,
    kl ∈ window_positions w1 ->
    neigh_test d1 w1 i j kl.1 kl.2 = neigh_test d2 w2 i j kl.1 kl.2
    /\ (neigh_test d1 w1 i j kl.1 kl.2 = true ->
        neigh_value d1 w1 i j kl.1 kl.2 = neigh_value d2 w2 i j kl.1 kl.2)).
  { intros [k l] Hin. apply elem_of_window_positions in Hin as [Hk Hl]. simpl.
    unfold neigh_test, neigh_value.
    rewrite <- Hwr, <- Hwc, <- Hdr, <- Hdc, <- (Hw k l) by done.
    set (di := i + k - Z.quot (nrow w1) 2).
    set (dj := j + l - Z.quot (ncol w1) 2).
    destruct (Z.leb_spec 0 di); simpl; [|done].
    destruct (Z.leb_spec 0 dj); simpl; [|done].
    destruct (Z.ltb_spec di (nrow d1)); simpl; [|done].
    destruct (Z.ltb_spec dj (ncol d1)); simpl; [|done].
    by rewrite (Hd di dj) by lia. }
  fold (window_positions w1). revert Htest.
  generalize (window_positions w1) as ps.
  induction ps as [|p ps IH]; intros Htest; simpl; [done|].
  destruct (Htest p) as [Ht Hv]; [left|]. rewrite <- Ht.
  destruct (neigh_test d1 w1 i j p.1 p.2) eqn:E; simpl.
  - rewrite Hv by done. f_equal. apply IH. intros kl Hkl. apply Htest. by right.
  - apply IH. intros kl Hkl. apply Htest. by right.
Qed.

(** X22. The output of the pass depends on the raster and on the window
    only through their dimensions and the cells within them: two rasters,
    and two windows, of the same dimensions that agree cell by cell give
    the same output sequence under the same variance, whatever their
    storage holds beyond. *)
Theorem bayes_estimator_class_same_cells (d1 d2 : Matrix double)
    (w1 w2 : Matrix Z) (v1 v2 : double) :
  same_raster d1 d2 -> same_window w1 w2 -> v1 = v2 ->
  bayes_estimator_class d1 w1 v1 = bayes_estimator_class d2 w2 v2.
Proof.
  intros Hd Hw <-. rewrite !bayes_estimator_class_flat.
  destruct Hd as (Hdr & Hdc & Hcell) eqn:Ed. rewrite <- Hdr, <- Hdc.
  assert (Hrows : forall rs : list Z,
    (forall i, i ∈ rs -> 0 <= i < nrow d1) ->
    (i ← rs; map (fun j => estimate_at d1 w1 v1 i j) (seqZ 0 (ncol d1)))
    = (i ← rs; map (fun j => estimate_at d2 w2 v1 i j) (seqZ 0 (ncol d1)))).
  { induction rs as [|i rs IH]; intros Hrs; [done|].
    change ((i :: rs) ≫= ?g) with (g i ++ (rs ≫= g)).
    rewrite IH by (intros; apply Hrs; by right). f_equal.
    apply map_ext_in. intros j Hj%list_elem_of_In%elem_of_seqZ.
    unfold estimate_at.
    rewrite (build_neigh_same d1 d2 w1 w2) by done.
    rewrite Hcell; [done| |lia]. apply Hrs. by left. }
  apply Hrows. intros i Hi%elem_of_seqZ. lia.
Qed.

End PassFacts.

(** * The estimator in exact arithmetic *)

Section ExactFacts.

Local Open Scope R_scope.

(** Unfolds the operations of [DoubleOps] at [xreal]. *)
Ltac xops :=
  change (@fadd xreal _) with xadd;
  change (@fsub xreal _) with xsub;
  change (@fmul xreal _) with xmul;
  change (@fdiv xreal _) with xdiv;
  change (@flog xreal _) with xlog;
  change (@fpow2 xreal _) with xpow2;
  change (@isnan xreal _) with xisnan;
  change (@isfinite xreal _) with xisfinite;
  change (@NAN xreal _) with XNaN;
  change (@ladd xreal _) with xadd;
  change (@lsub xreal _) with xsub;
  change (@ldiv xreal _) with xdiv;
  change (@widen xreal _) with (fun a : xreal => a);
  change (@narrow xreal _) with (fun a : xreal => a);
  change (@l_of_int xreal _) with (fun z => XFin (IZR z));
  change (@of_int xreal _) with (fun z => XFin (IZR z)); cbv beta.

Lemma Rzero_0 : Rzero 0 = true.
Proof. unfold Rzero. by destruct (Req_dec_T 0 0). Qed.

Lemma Rzero_false (r : R) : r <> 0 -> Rzero r = false.
Proof. intros Hr. unfold Rzero. by destruct (Req_dec_T r 0). Qed.

Lemma Rneg_false (r : R) : 0 <= r -> Rneg r = false.
Proof. intros Hr. unfold Rneg. destruct (Rlt_dec r 0); [lra|done]. Qed.

(** *** Addition is a commutative monoid, special values included *)

Lemma xadd_comm (a b : xreal) : xadd a b = xadd b a.
Proof.
  destruct a as [|s|r], b as [|t|q]; simpl; try done.
  - by destruct s, t.
  - f_equal. lra.
Qed.

Lemma xadd_assoc (a b c : xreal) : xadd a (xadd b c) = xadd (xadd a b) c.
Proof.
  destruct a as [|s|r], b as [|t|q], c as [|u|p]; simpl; try done;
    try (destruct s; destruct t; simpl; done);
    try (destruct t; destruct u; simpl; done);
    try (destruct s; destruct u; simpl; done).
  - destruct s, t, u; done.
  - f_equal. lra.
Qed.

Lemma xadd_0_l (a : xreal) : xadd (XFin 0) a = a.
Proof. destruct a as [|s|r]; simpl; try done. f_equal. lra. Qed.

Lemma xadd_nan_r (a : xreal) : xadd a XNaN = XNaN.
Proof. by destruct a. Qed.

Lemma xmul_nan_r (a : xreal) : xmul a XNaN = XNaN.
Proof. by destruct a. Qed.

Lemma xpow2_mul (a : xreal) : xpow2 a = xmul a a.
Proof. destruct a as [|s|r]; simpl; try done. by destruct s. Qed.

(** *** Sums *)

Lemma total_cons (a : xreal) (l : list xreal) :
  total (a :: l) = xadd a (total l).
Proof. done. Qed.

Lemma total_permutation (l l' : list xreal) :
  Permutation l l' -> total l = total l'.
Proof.
  induction 1 as [|a l l' _ IH|a b l|l l' l'' _ IH1 _ IH2].
  - done.
  - by rewrite !total_cons, IH.
  - rewrite !total_cons, !xadd_assoc. f_equal. apply xadd_comm.
  - by rewrite IH1.
Qed.

(** An accumulation loop computes the start value plus the sum. *)
Lemma foldl_accumulate {A} (g : A -> xreal) (l : list A) (a : xreal) :
  foldl (fun acc x => xadd acc (g x)) a l = xadd a (total (map g l)).
Proof.
  revert a. induction l as [|x l IH]; intros a; simpl.
  - destruct a as [|s|r]; simpl; try done. f_equal. lra.
  - rewrite IH. fold (total (map g l)). by rewrite xadd_assoc.
Qed.

(** A finite sum has finite terms only. *)
Lemma total_finite (l : list xreal) (sigma : R) :
  total l = XFin sigma ->
  exists rs, l = map XFin rs /\ sigma = fold_right Rplus 0 rs.
Proof.
  revert sigma. induction l as [|a l IH]; intros sigma Hs.
  - exists []. split; [done|]. simpl in Hs. by inversion Hs.
  - rewrite total_cons in Hs.
    destruct a as [|s|r], (total l) as [|t|q] eqn:E; simpl in Hs;
      try discriminate.
    + by destruct (Bool.eqb s t).
    + destruct (IH q eq_refl) as (rs & -> & ->).
      exists (r :: rs). split; [done|]. simpl. by inversion Hs.
Qed.

(** The residuals of finite terms about [q]. *)
Lemma total_residuals (rs : list R) (q : R) :
  total (map (fun xi => xsub xi (XFin q)) (map XFin rs))
  = XFin (fold_right Rplus 0 rs - INR (length rs) * q).
Proof.
  induction rs as [|r rs IH].
  - simpl. f_equal. lra.
  - change (xadd (XFin (r - q))
              (total (map (fun xi => xsub xi (XFin q)) (map XFin rs)))
            = XFin (fold_right Rplus 0 (r :: rs)
                    - INR (length (r :: rs)) * q)).
    rewrite IH. change (length (r :: rs)) with (S (length rs)).
    rewrite S_INR. simpl. f_equal. lra.
Qed.

(** *** Rcpp's mean and var are the mean and the sample variance *)

Lemma mean_is_spec_mean (l : list xreal) : mean l = spec_mean l.
Proof.
  unfold mean, spec_mean. xops.
  rewrite (foldl_accumulate (fun xi => xi)), map_id, xadd_0_l.
  destruct (xdiv (total l) (XFin (IZR (Z.of_nat (length l))))) as [|s|q] eqn:Hs;
    simpl; try done.
  rewrite (foldl_accumulate (fun xi => xsub xi (XFin q))), xadd_0_l.
  destruct (total l) as [|t|sigma] eqn:Ht; simpl in Hs; try discriminate.
  destruct (Rzero (IZR (Z.of_nat (length l)))) eqn:Hz.
  { destruct (Rzero sigma); discriminate. }
  inversion Hs as [Hq]. rewrite Hq.
  destruct (total_finite l sigma Ht) as (rs & -> & Hsum).
  rewrite total_residuals. rewrite length_map in *.
  rewrite <- INR_IZR_INZ in *. simpl. rewrite Hz. f_equal.
  assert (INR (length rs) <> 0).
  { intros E. rewrite E, Rzero_0 in Hz. discriminate. }
  rewrite <- Hq, <- Hsum. field. done.
Qed.

Lemma var_is_spec_variance (l : list xreal) : var l = spec_variance l.
Proof.
  unfold var, spec_variance. rewrite mean_is_spec_mean.
  change (@fadd xreal _) with xadd. change (@fpow2 xreal _) with xpow2.
  change (@fmul xreal _) with xmul. change (@of_int xreal _ 0%Z) with (XFin 0).
  rewrite (foldl_accumulate (fun xi => xpow2 (fsub xi (spec_mean l)))).
  rewrite xadd_0_l.
  f_equal. f_equal. apply map_ext. intros a. apply xpow2_mul.
Qed.

Lemma bayes_estimator_pixel_blend (p : xreal) (neigh : list xreal)
    (variance : xreal) :
  isnan p = false ->
  bayes_estimator_pixel p neigh variance = spec_blend p neigh variance.
Proof.
  intros Hp. unfold bayes_estimator_pixel, spec_blend. rewrite Hp.
  by rewrite var_is_spec_variance, mean_is_spec_mean.
Qed.

(** C1. For every cell whose value is not the missing value and whose
    gathered neighbour sequence has at least 2 elements, the output is
    w1 * x + w2 * mean(L), where L is the element-wise transform
    ln(n / (10000 - n)) of the gathered values,
    x = ln(center_value / (10000 - center_value)), v is the unbiased
    sample variance of L (sum of squared deviations divided by count - 1),
    w1 = v / (variance + v) and w2 = variance / (variance + v). *)
Theorem estimate_is_logit_blend (data : Matrix xreal) (window : Matrix Z)
    (variance : xreal) (i j : Z) :
  (0 <= i < nrow data)%Z -> (0 <= j < ncol data)%Z ->
  isnan (data_at data i j) = false ->
  (2 <= length (build_neigh data window i j))%nat ->
  let L := map spec_logit (build_neigh data window i j) in
  let x := spec_logit (data_at data i j) in
  let v := spec_variance L in
  let w1 := fdiv v (fadd variance v) in
  let w2 := fdiv variance (fadd variance v) in
  bayes_estimator_class data window variance
    !! Z.to_nat (i * ncol data + j)
  = Some (fadd (fmul w1 x) (fmul w2 (spec_mean L))).
Proof.
  intros Hi Hj Hp _. simpl.
  rewrite bayes_estimator_class_lookup by done. unfold estimate_at.
  by rewrite bayes_estimator_pixel_blend.
Qed.

(** *** Degenerate neighbourhoods *)

Lemma spec_mean_nil : spec_mean (@nil xreal) = XNaN.
Proof.
  unfold spec_mean. simpl. change (IZR (Z.of_nat 0)) with 0.
  by rewrite !Rzero_0.
Qed.

Lemma spec_variance_singleton (y : xreal) : spec_variance [y] = XNaN.
Proof.
  unfold spec_variance, spec_mean. simpl.
  change (IZR (Z.of_nat 1)) with 1. change (IZR (Z.of_nat 1 - 1)) with 0.
  destruct y as [|s|y]; simpl; try done.
  - rewrite (Rneg_false 1) by lra. by destruct s.
  - rewrite (Rzero_false 1) by lra. simpl. rewrite Rzero_0.
    replace ((y - (y + 0) / 1) * (y - (y + 0) / 1) + 0) with 0 by field.
    by rewrite Rzero_0.
Qed.

Lemma bayes_estimator_pixel_short (p : xreal) (neigh : list xreal)
    (variance : xreal) :
  isnan p = false -> (length neigh <= 1)%nat ->
  isnan (bayes_estimator_pixel p neigh variance) = true.
Proof.
  intros Hp Hlen. rewrite bayes_estimator_pixel_blend by done.
  unfold spec_blend.
  change (@fadd xreal _) with xadd. change (@fmul xreal _) with xmul.
  change (@fdiv xreal _) with xdiv. change (@isnan xreal _) with xisnan.
  destruct neigh as [|a [|b neigh]]; [| |simpl in Hlen; lia].
  - (* no neighbour: the mean is 0 / 0 *)
    change (map spec_logit []) with (@nil xreal).
    by rewrite spec_mean_nil, xmul_nan_r, xadd_nan_r.
  - (* one neighbour: the variance is 0 / 0 *)
    change (map spec_logit [a]) with [spec_logit a].
    by rewrite spec_variance_singleton.
Qed.

(** C4. For every cell whose value is not the missing value but whose
    gathered neighbour sequence is empty or has exactly one element, the
    output at that cell is not-a-number (the mean over zero elements, or
    the sample variance with count - 1 = 0); the pass still returns a
    value for the cell: nothing is thrown and no case is set apart. *)
Theorem short_neighbourhood_gives_nan (data : Matrix xreal)
    (window : Matrix Z) (variance : xreal) (i j : Z) :
  (0 <= i < nrow data)%Z -> (0 <= j < ncol data)%Z ->
  isnan (data_at data i j) = false ->
  (length (build_neigh data window i j) <= 1)%nat ->
  exists out,
    bayes_estimator_class data window variance
      !! Z.to_nat (i * ncol data + j) = Some out
    /\ isnan out = true.
Proof.
  intros Hi Hj Hp Hlen. eexists. split.
  - by apply bayes_estimator_class_lookup.
  - unfold estimate_at. by apply bayes_estimator_pixel_short.
Qed.

(** *** The order of the neighbours *)

Lemma spec_mean_permutation (l l' : list xreal) :
  Permutation l l' -> spec_mean l = spec_mean l'.
Proof.
  intros Hp. unfold spec_mean.
  by rewrite (total_permutation l l' Hp), (Permutation_length Hp).
Qed.

Lemma spec_variance_permutation (l l' : list xreal) :
  Permutation l l' -> spec_variance l = spec_variance l'.
Proof.
  intros Hp. unfold spec_variance.
  rewrite (spec_mean_permutation l l' Hp), (Permutation_length Hp).
  f_equal. apply total_permutation. by apply Permutation_map.
Qed.

(** C7, as amended. In exact arithmetic, that is up to the rounding of the
    floating-point operations, the order of the elements of the neighbour
    sequence does not affect the estimate: for every centre value,
    variance and neighbour sequence, the estimate of any permutation of
    the sequence is the estimate of the sequence (only the mean and the
    variance of the sequence are used, and exact sums do not depend on the
    order, special values included). *)
Theorem bayes_estimator_pixel_permutation (p : xreal)
    (neigh neigh' : list xreal) (variance : xreal) :
  Permutation neigh neigh' ->
  bayes_estimator_pixel p neigh' variance
  = bayes_estimator_pixel p neigh variance.
Proof.
  intros Hp. destruct (isnan p) eqn:Hnan.
  - unfold bayes_estimator_pixel. by rewrite Hnan.
  - rewrite !bayes_estimator_pixel_blend by done. unfold spec_blend.
    assert (HL : Permutation (map spec_logit neigh) (map spec_logit neigh'))
      by by apply Permutation_map.
    by rewrite (spec_mean_permutation _ _ HL),
               (spec_variance_permutation _ _ HL).
Qed.

(** C7, as stated, fails on binary64. With centre 5000, variance 1 and the
    neighbours 1000, 2000, 6000, exchanging the last two neighbours
    changes the last bit of the sum of squared deviations (the rounded
    additions of [double] are not associative), hence of the variance and
    of the estimate: -0.38193164032944366 for the order 1000, 2000, 6000
    and -0.38193164032944371 for the order 1000, 6000, 2000, whichever of
    the three formats [long double] has. *)
Lemma rounded_estimate_depends_on_order :
  Permutation [1000; 2000; 6000]%float [1000; 6000; 2000]%float
  /\ @bayes_estimator_pixel float b64_x87_ops 5000%float
       [1000; 6000; 2000]%float 1%float
     <> @bayes_estimator_pixel float b64_x87_ops 5000%float
          [1000; 2000; 6000]%float 1%float
  /\ @bayes_estimator_pixel float b64_quad_ops 5000%float
       [1000; 6000; 2000]%float 1%float
     <> @bayes_estimator_pixel float b64_quad_ops 5000%float
          [1000; 2000; 6000]%float 1%float
  /\ @bayes_estimator_pixel float b64_ops 5000%float
       [1000; 6000; 2000]%float 1%float
     <> @bayes_estimator_pixel float b64_ops 5000%float
          [1000; 2000; 6000]%float 1%float.
Proof.
  split; [apply perm_skip, perm_swap|].
  repeat split; intros E; apply (f_equal Prim2SF) in E;
    vm_compute in E; discriminate.
Qed.

(** The two estimates, and where they part: the means agree, the variances
    differ in their last bit. *)
Example rounded_estimate_values :
  @bayes_estimator_pixel float b64_x87_ops 5000%float
    [1000; 2000; 6000]%float 1%float = (-0x1.8719168217233p-2)%float
  /\ @bayes_estimator_pixel float b64_x87_ops 5000%float
       [1000; 6000; 2000]%float 1%float = (-0x1.8719168217234p-2)%float
  /\ @mean float b64_x87_ops (map logit [1000; 2000; 6000]%float)
     = @mean float b64_x87_ops (map logit [1000; 6000; 2000]%float)
  /\ @var float b64_x87_ops (map logit [1000; 2000; 6000]%float)
     = 0x1.c60f0e5036167p+0%float
  /\ @var float b64_x87_ops (map logit [1000; 6000; 2000]%float)
     = 0x1.c60f0e5036166p+0%float.
Proof. repeat split; vm_compute; reflexivity. Qed.

(** The degenerate neighbourhood and the scenario of the hole, evaluated on
    binary64 with variance 0.1 (the number 0x1.999999999999ap-4): the
    results of the exact model are the results of the rounded arithmetic. *)
Example single_cell_b64 :
  build_neigh raster_single_b64 window_ones 0 0 = [5000%float]
  /\ bayes_estimator_class raster_single_b64 window_ones
       0x1.999999999999ap-4%float
     = [PrimFloat.nan].
Proof. split; vm_compute; reflexivity. Qed.

Example hole_scenario_b64 :
  bayes_estimator_class raster_hole_b64 window_ones
    0x1.999999999999ap-4%float
  = [0; 0; 0; 0; PrimFloat.nan; 0; 0; 0; 0]%float.
Proof. vm_compute. reflexivity. Qed.

(** *** Neighbourhoods of one repeated value *)

Lemma spec_logit_fin (r : R) :
  0 < r < 10000 -> spec_logit (XFin r) = XFin (ln (r / (10000 - r))).
Proof.
  intros Hr. unfold spec_logit. simpl.
  rewrite (Rzero_false (10000 - r)) by lra. simpl.
  assert (0 < r / (10000 - r)) by (apply Rdiv_lt_0_compat; lra).
  rewrite Rneg_false by lra. by rewrite Rzero_false by lra.
Qed.

Lemma map_replicate {A B} (f : A -> B) (n : nat) (a : A) :
  map f (replicate n a) = replicate n (f a).
Proof. induction n as [|n IH]; simpl; [done|by rewrite IH]. Qed.

Lemma total_replicate (n : nat) (c : R) :
  total (replicate n (XFin c)) = XFin (INR n * c).
Proof.
  induction n as [|n IH].
  - simpl. f_equal. lra.
  - change (xadd (XFin c) (total (replicate n (XFin c)))
            = XFin (INR (S n) * c)).
    rewrite IH, S_INR. simpl. f_equal. lra.
Qed.

Lemma spec_mean_replicate (n : nat) (c : R) :
  (1 <= n)%nat -> spec_mean (replicate n (XFin c)) = XFin c.
Proof.
  intros Hn. unfold spec_mean. xops.
  rewrite total_replicate, length_replicate, <- INR_IZR_INZ. simpl.
  assert (INR n <> 0) by (apply not_0_INR; lia).
  rewrite Rzero_false by done. f_equal. by field.
Qed.

Lemma spec_variance_replicate (n : nat) (c : R) :
  (2 <= n)%nat -> spec_variance (replicate n (XFin c)) = XFin 0.
Proof.
  intros Hn. unfold spec_variance.
  rewrite spec_mean_replicate by lia. xops.
  rewrite map_replicate. simpl. rewrite total_replicate, length_replicate.
  rewrite minus_IZR, <- INR_IZR_INZ. simpl.
  assert (2 <= INR n) by (apply (le_INR 2); lia).
  rewrite Rzero_false by lra. f_equal. field. lra.
Qed.

(** With two or more equal neighbours the variance vanishes and the blend
    is the common transformed value. *)
Lemma spec_blend_constant (p a : xreal) (n : nat) (r x c : R) :
  (2 <= n)%nat -> 0 < r ->
  spec_logit p = XFin x -> spec_logit a = XFin c ->
  spec_blend p (replicate n a) (XFin r) = XFin c.
Proof.
  intros Hn Hr Hx Hc. unfold spec_blend.
  rewrite map_replicate, Hx, Hc.
  rewrite spec_variance_replicate, spec_mean_replicate by lia. simpl.
  rewrite (Rzero_false (r + 0)) by lra. simpl. f_equal. field. lra.
Qed.

(** The values gathered in the two scenarios. *)
Lemma logit_half : spec_logit (XFin (5000 * 1)) = XFin 0.
Proof.
  rewrite spec_logit_fin by lra.
  replace (5000 * 1 / (10000 - 5000 * 1)) with 1 by field.
  by rewrite ln_1.
Qed.

Lemma logit_half_scaled : spec_logit (XFin (2500 * 2)) = XFin 0.
Proof.
  rewrite spec_logit_fin by lra.
  replace (2500 * 2 / (10000 - 2500 * 2)) with 1 by field.
  by rewrite ln_1.
Qed.

Lemma logit_quarter_nonzero : ln (2500 * 1 / (10000 - 2500 * 1)) <> 0.
Proof.
  replace (2500 * 1 / (10000 - 2500 * 1)) with (/ 3) by field.
  rewrite ln_Rinv by lra.
  assert (0 < ln 3); [|lra].
  rewrite <- ln_1. apply ln_increasing; lra.
Qed.

Lemma logit_center_half : spec_logit (XFin 5000) = XFin 0.
Proof.
  rewrite spec_logit_fin by lra.
  replace (5000 / (10000 - 5000)) with 1 by field.
  by rewrite ln_1.
Qed.

(** Replaces the scan of a concrete raster by the list it gathers. *)
Ltac run_scan :=
  unfold estimate_at;
  match goal with
  | |- context [build_neigh ?d ?w ?i ?j] =>
      let l := eval lazy -[IZR Rmult] in (build_neigh d w i j) in
      change (build_neigh d w i j) with l
  end;
  match goal with
  | |- context [data_at ?d ?i ?j] =>
      let p := eval lazy -[IZR] in (data_at d i j) in
      change (data_at d i j) with p
  end.

(** Away from the hole, every cell of the scenario sees three or five
    neighbours, all 5000, and its estimate is 0. *)
Lemma hole_estimates (r : R) (i j : Z) :
  0 < r -> (0 <= i < 3)%Z -> (0 <= j < 3)%Z -> (i, j) <> (1, 1)%Z ->
  estimate_at raster_hole window_ones (XFin r) i j = XFin 0.
Proof.
  intros Hr Hi Hj Hne.
  assert (Ei : i = 0%Z \/ i = 1%Z \/ i = 2%Z) by lia.
  assert (Ej : j = 0%Z \/ j = 1%Z \/ j = 2%Z) by lia.
  destruct Ei as [->|[->| ->]], Ej as [->|[->| ->]]; try done;
    run_scan; rewrite bayes_estimator_pixel_blend by done;
    first [ apply (spec_blend_constant _ (XFin (5000 * 1)) 3 r 0 0)
          | apply (spec_blend_constant _ (XFin (5000 * 1)) 5 r 0 0) ];
    first [ lia | done | apply logit_center_half | apply logit_half ].
Qed.

(** C6. For the 3 x 3 raster of 5000 with the missing value at (1,1), the
    full 3 x 3 window of ones and any finite positive variance: the output
    at (1,1) is the missing value and the output at every other cell is
    finite (neither NaN nor infinite), because the missing cell is dropped
    from every neighbour sequence by the test on the raster value.  The
    variance is a positive real number; the positive infinity is left
    out, see [hole_scenario_infinite_variance]. *)
Theorem hole_scenario (r : R) :
  0 < r ->
  let out := bayes_estimator_class raster_hole window_ones (XFin r) in
  out !! Z.to_nat (1 * 3 + 1) = Some NAN
  /\ (forall i j, (0 <= i < 3)%Z -> (0 <= j < 3)%Z -> (i, j) <> (1, 1)%Z ->
        exists v, out !! Z.to_nat (i * 3 + j) = Some v
                  /\ isfinite v = true /\ isnan v = false)
  /\ (forall i j k l, (k, l) ∈ selected raster_hole window_ones i j ->
        (i + k - 1, j + l - 1)%Z <> (1, 1)%Z).
Proof.
  intros Hr out. split; [|split].
  - assert (Hc : estimate_at raster_hole window_ones (XFin r) 1 1 = XNaN)
      by reflexivity.
    change (@NAN xreal _) with XNaN. rewrite <- Hc.
    by apply (bayes_estimator_class_lookup raster_hole window_ones (XFin r)).
  - intros i j Hi Hj Hne. exists (XFin 0). split; [|done].
    rewrite <- (hole_estimates r i j) by done.
    by apply (bayes_estimator_class_lookup raster_hole window_ones (XFin r)).
  - intros i j k l Hsel E. apply elem_of_selected in Hsel as [_ Ht].
    apply neigh_test_true in Ht as (_ & _ & _ & _ & _ & Hnan).
    change (nrow window_ones `div` 2)%Z with 1%Z in Hnan.
    change (ncol window_ones `div` 2)%Z with 1%Z in Hnan.
    injection E as E1 E2. rewrite E1, E2 in Hnan. discriminate.
Qed.

(** An infinite variance parameter makes the second weight
    variance / (variance + v) the quotient of two infinities, or a
    quotient by NaN: the estimate is NaN for every centre value and every
    neighbour sequence. *)
Lemma bayes_estimator_pixel_infinite_variance (p : xreal)
    (neigh : list xreal) (s : bool) :
  bayes_estimator_pixel p neigh (XInf s) = XNaN.
Proof.
  destruct (isnan p) eqn:Hnan.
  { unfold bayes_estimator_pixel. by rewrite Hnan. }
  rewrite bayes_estimator_pixel_blend by done. unfold spec_blend. xops.
  generalize (spec_variance (map spec_logit neigh))
             (spec_mean (map spec_logit neigh)) (spec_logit p).
  intros v m x.
  assert (Hw : xdiv (XInf s) (xadd (XInf s) v) = XNaN).
  { destruct v as [|t|q]; simpl; try done. by destruct (Bool.eqb s t). }
  rewrite Hw. change (xmul XNaN m) with XNaN. apply xadd_nan_r.
Qed.

(** C6, as stated, fails at the variance parameter +infinity, a positive
    [double] that the code accepts as any other: the second weight is
    infinity / infinity, and all nine outputs of the scenario are NaN, none
    finite.  In exact arithmetic and on binary64 alike. *)
Lemma hole_scenario_infinite_variance :
  bayes_estimator_class raster_hole window_ones (XInf false)
  = [XNaN; XNaN; XNaN; XNaN; XNaN; XNaN; XNaN; XNaN; XNaN]
  /\ (exists v, bayes_estimator_class raster_hole window_ones (XInf false)
                  !! Z.to_nat (0 * 3 + 0) = Some v
                /\ isfinite v = false /\ isnan v = true)
  /\ PrimFloat.ltb 0 infinity = true
  /\ @bayes_estimator_class float b64_ops raster_hole_b64 window_ones
       infinity
     = [PrimFloat.nan; PrimFloat.nan; PrimFloat.nan;
        PrimFloat.nan; PrimFloat.nan; PrimFloat.nan;
        PrimFloat.nan; PrimFloat.nan; PrimFloat.nan]
  /\ @bayes_estimator_class float b64_x87_ops raster_hole_b64 window_ones
       infinity
     = [PrimFloat.nan; PrimFloat.nan; PrimFloat.nan;
        PrimFloat.nan; PrimFloat.nan; PrimFloat.nan;
        PrimFloat.nan; PrimFloat.nan; PrimFloat.nan].
Proof.
  assert (Hout : bayes_estimator_class raster_hole window_ones (XInf false)
                 = [XNaN; XNaN; XNaN; XNaN; XNaN; XNaN; XNaN; XNaN; XNaN]).
  { rewrite bayes_estimator_class_flat.
    change (seqZ 0 (nrow raster_hole)) with [0; 1; 2]%Z.
    change (seqZ 0 (ncol raster_hole)) with [0; 1; 2]%Z.
    unfold estimate_at. cbn [mbind list_bind map app].
    by rewrite !bayes_estimator_pixel_infinite_variance. }
  split; [exact Hout|]. split.
  { exists XNaN. rewrite Hout. by repeat split. }
  repeat split; vm_compute; reflexivity.
Qed.

(** The scenario of the plus-shaped window: every cell gathers itself and
    its two neighbours in the raster, and every output is 0. *)
Example plus_scenario :
  bayes_estimator_class raster_flat window_plus (XFin (1 / 10))
  = [XFin 0; XFin 0; XFin 0; XFin 0].
Proof.
  rewrite bayes_estimator_class_flat.
  change (seqZ 0 (nrow raster_flat)) with [0; 1]%Z.
  change (seqZ 0 (ncol raster_flat)) with [0; 1]%Z.
  assert (Hcell : forall i j, (0 <= i < 2)%Z -> (0 <= j < 2)%Z ->
            estimate_at raster_flat window_plus (XFin (1 / 10)) i j = XFin 0).
  { intros i j Hi Hj.
    assert (Ei : i = 0%Z \/ i = 1%Z) by lia.
    assert (Ej : j = 0%Z \/ j = 1%Z) by lia.
    destruct Ei as [->| ->], Ej as [->| ->];
      run_scan; rewrite bayes_estimator_pixel_blend by done;
      apply (spec_blend_constant _ (XFin (5000 * 1)) 3 (1 / 10) 0 0);
      first [ lia | lra | apply logit_center_half | apply logit_half ]. }
  simpl. by rewrite !Hcell by lia.
Qed.

(** At the corner (0,0) the window offsets that leave the raster are
    skipped: three neighbours remain of the nine window positions. *)
Example corner_scan :
  build_neigh raster_hole window_ones 0 0
  = [XFin (5000 * 1); XFin (5000 * 1); XFin (5000 * 1)]
  /\ selected raster_hole window_ones 0 0 = [(1, 1); (1, 2); (2, 1)]%Z.
Proof. split; reflexivity. Qed.

(** The first cell of the scaling scenario, before and after scaling. *)
Lemma quarter_estimate :
  estimate_at raster_quarter window_row (XFin 1) 0 0
  = XFin (ln (2500 * 1 / (10000 - 2500 * 1))).
Proof.
  run_scan. rewrite bayes_estimator_pixel_blend by done.
  apply (spec_blend_constant _ (XFin (2500 * 1)) 2 1
           (ln (2500 / (10000 - 2500)))); [lia|lra| |];
    by rewrite spec_logit_fin by lra.
Qed.

Lemma quarter_estimate_scaled :
  estimate_at raster_quarter (scale_window 2 window_row) (XFin 1) 0 0
  = XFin 0.
Proof.
  run_scan. rewrite bayes_estimator_pixel_blend by done.
  apply (spec_blend_constant _ (XFin (2500 * 2)) 2 1
           (ln (2500 / (10000 - 2500)))); [lia|lra| |].
  - by rewrite spec_logit_fin by lra.
  - apply logit_half_scaled.
Qed.

(** The same on binary64, with a raster of 1000: the outputs are ln(1/9)
    before the weights are doubled and ln(1/4) after. *)
Example weight_scaling_b64 :
  bayes_estimator_class raster_tenth_b64 window_row 1%float
  = [-0x1.193ea7aad030bp+1; -0x1.193ea7aad030bp+1]%float
  /\ bayes_estimator_class raster_tenth_b64 (scale_window 2 window_row) 1%float
     = [-0x1.62e42fefa39efp+0; -0x1.62e42fefa39efp+0]%float.
Proof. split; vm_compute; reflexivity. Qed.

(** C8. The output is not invariant under a uniform scaling of the window
    weights: there are a raster, a window, a variance and an integer
    c > 1 such that the pass with every weight multiplied by c returns a
    different output than with the window itself; each gathered value is
    the raster value times the weight, and the transform is not linear. *)
Theorem weight_scaling_changes_output :
  exists (data : Matrix xreal) (window : Matrix Z) (variance : xreal) (c : Z),
    (1 < c)%Z
    /\ bayes_estimator_class data (scale_window c window) variance
       <> bayes_estimator_class data window variance.
Proof.
  exists raster_quarter, window_row, (XFin 1), 2%Z. split; [lia|]. intros E.
  assert (H0 : (0 <= 0 < nrow raster_quarter)%Z) by done.
  assert (H1 : (0 <= 0 < ncol raster_quarter)%Z) by done.
  pose proof (bayes_estimator_class_lookup raster_quarter
                (scale_window 2 window_row) (XFin 1) 0 0 H0 H1) as Hs.
  pose proof (bayes_estimator_class_lookup raster_quarter
                window_row (XFin 1) 0 0 H0 H1) as Ho.
  rewrite E, Ho, quarter_estimate, quarter_estimate_scaled in Hs.
  inversion Hs as [Hln]. by apply logit_quarter_nonzero.
Qed.

End ExactFacts.

(** * The theorems at concrete inputs *)

(** The corner (0,0) of the scenario raster is among its own neighbours. *)
Lemma build_neigh_contains_center_witness :
  fmul (data_at raster_hole 0 0) (of_int (window_at window_ones 1 1))
  ∈ build_neigh raster_hole window_ones 0 0.
Proof.
  apply (build_neigh_contains_center raster_hole window_ones 0 0).
  - reflexivity.
  - reflexivity.
  - reflexivity.
  - unfold nrow; simpl; lia.
  - unfold ncol; simpl; lia.
  - reflexivity.
Defined.

(** The hole of the scenario raster stays missing. *)
Lemma missing_cell_short_circuits_witness :
  bayes_estimator_class raster_hole window_ones (XFin 1)
    !! Z.to_nat (1 * ncol raster_hole + 1) = Some NAN
  /\ forall (neigh : list xreal) (variance' : xreal),
       bayes_estimator_pixel (data_at raster_hole 1 1) neigh variance' = NAN.
Proof.
  apply (missing_cell_short_circuits raster_hole window_ones (XFin 1) 1 1).
  - unfold nrow; simpl; lia.
  - unfold ncol; simpl; lia.
  - reflexivity.
Defined.

(** Two storages of the scenario raster, one with a spare element, give
    the same output. *)
Lemma bayes_estimator_class_same_cells_witness :
  bayes_estimator_class raster_hole window_ones (XFin 1)
  = bayes_estimator_class
      (mkMatrix 3 3 (mat_data raster_hole ++ [XFin 0])) window_ones (XFin 1).
Proof.
  apply bayes_estimator_class_same_cells.
  - split; [reflexivity|]. split; [reflexivity|]. intros i j Hi Hj.
    unfold nrow, ncol in Hi, Hj. simpl in Hi, Hj.
    assert (Ei : i = 0 \/ i = 1 \/ i = 2) by lia.
    assert (Ej : j = 0 \/ j = 1 \/ j = 2) by lia.
    destruct Ei as [->|[->| ->]], Ej as [->|[->| ->]]; reflexivity.
  - split; [reflexivity|]. split; reflexivity.
  - reflexivity.
Defined.

(** The corner (0,0) of the scenario raster has three neighbours. *)
Lemma estimate_is_logit_blend_witness :
  let L := map spec_logit (build_neigh raster_hole window_ones 0 0) in
  let x := spec_logit (data_at raster_hole 0 0) in
  let v := spec_variance L in
  let w1 := fdiv v (fadd (XFin 1) v) in
  let w2 := fdiv (XFin 1) (fadd (XFin 1) v) in
  bayes_estimator_class raster_hole window_ones (XFin 1)
    !! Z.to_nat (0 * ncol raster_hole + 0)
  = Some (fadd (fmul w1 x) (fmul w2 (spec_mean L))).
Proof.
  apply (estimate_is_logit_blend raster_hole window_ones (XFin 1) 0 0).
  - unfold nrow; simpl; lia.
  - unfold ncol; simpl; lia.
  - reflexivity.
  - vm_compute. lia.
Defined.

(** A raster of one cell: the cell is its only neighbour. *)
Lemma short_neighbourhood_gives_nan_witness :
  exists out,
    bayes_estimator_class (mkMatrix 1 1 [XFin 5000]) window_ones (XFin 1)
      !! Z.to_nat (0 * ncol (mkMatrix 1 1 [XFin 5000]) + 0) = Some out
    /\ isnan out = true.
Proof.
  apply (short_neighbourhood_gives_nan
           (mkMatrix 1 1 [XFin 5000]) window_ones (XFin 1) 0 0).
  - unfold nrow; simpl; lia.
  - unfold ncol; simpl; lia.
  - reflexivity.
  - vm_compute. lia.
Defined.

(** The scenario with variance 1. *)
Lemma hole_scenario_witness :
  bayes_estimator_class raster_hole window_ones (XFin 1)
    !! Z.to_nat (1 * 3 + 1) = Some NAN.
Proof.
  apply (hole_scenario 1). lra.
Defined.

(** Two neighbours, swapped. *)
Lemma bayes_estimator_pixel_permutation_witness :
  bayes_estimator_pixel (XFin 5000) [XFin 7500; XFin 2500] (XFin 1)
  = bayes_estimator_pixel (XFin 5000) [XFin 2500; XFin 7500] (XFin 1).
Proof.
  apply bayes_estimator_pixel_permutation. apply perm_swap.
Defined.

(** * Further properties of the scan *)

Section ScanMore.

Context {double : Type} `{DoubleOps double}.

Lemma filter_length_le {A} (f g : A -> bool) (l : list A) :
  (forall x, x ∈ l -> f x = true -> g x = true) ->
  (length (List.filter f l) <= length (List.filter g l))%nat.
Proof.
  induction l as [|x l IH]; intros Hfg; simpl; [lia|].
  assert (IH' : (length (List.filter f l) <= length (List.filter g l))%nat).
  { apply IH. intros y Hy. apply Hfg. by right. }
  destruct (f x) eqn:Ef.
  - rewrite (Hfg x) by (done || by left). simpl. lia.
  - destruct (g x); simpl; lia.
Qed.

Lemma window_positions_length (window : Matrix Z) :
  length (window_positions window) = (mat_nrow window * mat_ncol window)%nat.
Proof.
  unfold window_positions.
  assert (Hlen : forall ks : list Z,
    length (ks ≫= fun k => (fun l => (k, l)) <$> seqZ 0 (ncol window))
    = (length ks * mat_ncol window)%nat).
  { induction ks as [|k ks IH]; [done|].
    change ((k :: ks) ≫= ?g) with (g k ++ (ks ≫= g)).
    rewrite length_app, IH, length_fmap, length_seqZ. unfold ncol. simpl. lia. }
  rewrite Hlen, length_seqZ. unfold nrow. lia.
Qed.

Lemma build_neigh_length_le (data : Matrix double) (window : Matrix Z)
    (i j : Z) :
  (length (build_neigh data window i j)
   <= length (positive_weights window))%nat.
Proof.
  rewrite build_neigh_filter, length_map. unfold selected, positive_weights.
  apply filter_length_le. intros [k l] _ Ht. simpl in *.
  apply neigh_test_true in Ht. apply Z.ltb_lt. tauto.
Qed.

(** X1. The scan gathers at most one value per window position of
    positive weight, hence at most wrows * wcols values, whatever the
    raster and the cell. *)
Theorem build_neigh_length_bound (data : Matrix double) (window : Matrix Z)
    (i j : Z) :
  (length (build_neigh data window i j) <= length (positive_weights window))%nat
  /\ (length (positive_weights window)
      <= mat_nrow window * mat_ncol window)%nat.
Proof.
  split.
  - apply build_neigh_length_le.
  - rewrite <- window_positions_length. unfold positive_weights.
    generalize (window_positions window) as ps.
    induction ps as [|p ps IH]; simpl; [lia|].
    destruct (0 <? _); simpl; lia.
Qed.

(** X2. Where the whole window lies inside the raster and covers no
    missing value, the scan gathers exactly one value per position of
    positive weight: raster * weight, in scan order. *)
Theorem build_neigh_interior (data : Matrix double) (window : Matrix Z)
    (i j : Z) :
  (forall k l, 0 <= k < nrow window -> 0 <= l < ncol window ->
     0 <= i + k - nrow window `div` 2 < nrow data
     /\ 0 <= j + l - ncol window `div` 2 < ncol data
     /\ isnan (data_at data (i + k - nrow window `div` 2)
                            (j + l - ncol window `div` 2)) = false) ->
  build_neigh data window i j
  = map (fun kl => fmul (data_at data (i + kl.1 - nrow window `div` 2)
                                      (j + kl.2 - ncol window `div` 2))
                        (of_int (window_at window kl.1 kl.2)))
        (positive_weights window).
Proof.
  intros Hin. rewrite build_neigh_filter. unfold selected, positive_weights.
  assert (Hpos : forall kl, kl ∈ window_positions window ->
            neigh_test data window i j kl.1 kl.2
            = (0 <? window_at window kl.1 kl.2)).
  { intros [k l] Hkl. apply elem_of_window_positions in Hkl as [Hk Hl].
    simpl. destruct (Hin k l Hk Hl) as (Hi & Hj & Hnan).
    destruct (0 <? window_at window k l) eqn:Ew.
    - apply neigh_test_true. apply Z.ltb_lt in Ew. repeat split; tauto || lia.
    - destruct (neigh_test data window i j k l) eqn:Et; [|done].
      apply neigh_test_true in Et. apply Z.ltb_ge in Ew. lia. }
  revert Hpos. generalize (window_positions window) as ps.
  induction ps as [|p ps IH]; intros Hpos; simpl; [done|].
  rewrite (Hpos p) by by left.
  assert (IH' := IH (fun kl Hkl => Hpos kl (list_elem_of_further _ _ _ Hkl))).
  destruct (0 <? window_at window p.1 p.2); simpl; [|done].
  rewrite IH'. f_equal. destruct p as [k l]. simpl.
  unfold neigh_value, nrow, ncol. by rewrite !half_dim.
Qed.

Lemma build_neigh_agree (d1 d2 : Matrix double) (window : Matrix Z)
    (i j : Z) :
  same_footprint d1 d2 window i j ->
  build_neigh d1 window i j = build_neigh d2 window i j.
Proof.
  intros (Hr & Hc & Hd). rewrite !build_neigh_filter. unfold selected.
  assert (Htest : forall kl,
    kl ∈ window_positions window ->
    neigh_test d1 window i j kl.1 kl.2 = neigh_test d2 window i j kl.1 kl.2
    /\ (neigh_test d1 window i j kl.1 kl.2 = true ->
        neigh_value d1 window i j kl.1 kl.2
        = neigh_value d2 window i j kl.1 kl.2)).
  { intros [k l] Hin. apply elem_of_window_positions in Hin as [Hk Hl]. simpl.
    pose proof (Hd k l Hk Hl) as Hkl. simpl in Hkl.
    assert (Hqr : Z.quot (nrow window) 2 = nrow window `div` 2)
      by apply half_dim.
    assert (Hqc : Z.quot (ncol window) 2 = ncol window `div` 2)
      by apply half_dim.
    unfold neigh_test, neigh_value. rewrite <- Hr, <- Hc, !Hqr, !Hqc.
    set (di := i + k - nrow window `div` 2) in *.
    set (dj := j + l - ncol window `div` 2) in *.
    destruct (Z.leb_spec 0 di); simpl; [|done].
    destruct (Z.leb_spec 0 dj); simpl; [|done].
    destruct (Z.ltb_spec di (nrow d1)); simpl; [|done].
    destruct (Z.ltb_spec dj (ncol d1)); simpl; [|done].
    by rewrite Hkl by lia. }
  revert Htest. generalize (window_positions window) as ps.
  induction ps as [|p ps IH]; intros Htest; simpl; [done|].
  destruct (Htest p) as [Ht Hv]; [left|]. rewrite <- Ht.
  destruct (neigh_test d1 window i j p.1 p.2) eqn:E; simpl.
  - rewrite Hv by done. f_equal. apply IH. intros kl Hkl. apply Htest. by right.
  - apply IH. intros kl Hkl. apply Htest. by right.
Qed.

(** X3. The scan of cell (i, j) reads the raster only under the window
    centred on (i, j): two rasters of one shape that agree there give the
    same neighbours, however they differ elsewhere. *)
Theorem build_neigh_local (d1 d2 : Matrix double) (window : Matrix Z)
    (i j : Z) :
  same_footprint d1 d2 window i j ->
  build_neigh d1 window i j = build_neigh d2 window i j.
Proof. apply build_neigh_agree. Qed.

(** X4. The output of cell (i, j) depends on the raster only through the
    cell itself and the cells under the window centred on it. *)
Theorem bayes_estimator_class_local (d1 d2 : Matrix double)
    (window : Matrix Z) (variance : double) (i j : Z) :
  0 <= i < nrow d1 -> 0 <= j < ncol d1 ->
  data_at d1 i j = data_at d2 i j ->
  same_footprint d1 d2 window i j ->
  bayes_estimator_class d1 window variance !! Z.to_nat (i * ncol d1 + j)
  = bayes_estimator_class d2 window variance !! Z.to_nat (i * ncol d2 + j).
Proof.
  intros Hi Hj Hp Hf. pose proof Hf as (Hr & Hc & _).
  rewrite !bayes_estimator_class_lookup by lia. unfold estimate_at.
  by rewrite Hp, (build_neigh_agree d1 d2 window i j Hf).
Qed.

End ScanMore.

(** * Runs without undefined behaviour *)

Section CheckedFacts.

Context {double : Type} `{DoubleOps double}.

Lemma int_add_ok (a b : Z) :
  - 2 ^ 31 <= a + b < 2 ^ 31 -> int_add a b = Ok (a + b).
Proof.
  intros Hr. unfold int_add, in_int.
  destruct (Z.leb_spec (- 2 ^ 31) (a + b)); [|lia].
  destruct (Z.ltb_spec (a + b) (2 ^ 31)); [done|lia].
Qed.

Lemma int_sub_ok (a b : Z) :
  - 2 ^ 31 <= a - b < 2 ^ 31 -> int_sub a b = Ok (a - b).
Proof.
  intros Hr. unfold int_sub, in_int.
  destruct (Z.leb_spec (- 2 ^ 31) (a - b)); [|lia].
  destruct (Z.ltb_spec (a - b) (2 ^ 31)); [done|lia].
Qed.

Lemma mat_get_ok {A} (d : A) (m : Matrix A) (i j : Z) :
  well_formed m -> 0 <= i < nrow m -> 0 <= j < ncol m ->
  mat_get m i j = Ok (mat_at d m i j).
Proof.
  intros Hwf Hi Hj. unfold mat_get, mat_at.
  destruct (Z.leb_spec 0 i); [|lia]. destruct (Z.ltb_spec i (nrow m)); [|lia].
  destruct (Z.leb_spec 0 j); [|lia]. destruct (Z.ltb_spec j (ncol m)); [|lia].
  simpl.
  assert (Hlt : (Z.to_nat (i + nrow m * j) < length (mat_data m))%nat).
  { rewrite Hwf. unfold nrow, ncol in *. nia. }
  destruct (lookup_lt_is_Some_2 _ _ Hlt) as [a Ha]. rewrite Ha.
  f_equal. symmetry. apply nth_lookup_Some with (d := d) in Ha. done.
Qed.

Lemma foldM_ok {A B} (f : A -> B -> run A) (g : A -> B -> A) (l : list B)
    (a : A) :
  (forall a x, x ∈ l -> f a x = Ok (g a x)) ->
  foldM f a l = Ok (foldl g a l).
Proof.
  revert a. induction l as [|x l IH]; intros a Hf; simpl; [done|].
  rewrite Hf by by left. simpl. apply IH. intros a' y Hy. apply Hf. by right.
Qed.

(** One window position, checked: no fault, and the step of the scan. *)
Lemma neigh_step_checked_ok (data : Matrix double) (window : Matrix Z)
    (i j k l : Z) (neigh : list double) :
  well_formed data -> well_formed window ->
  0 <= i -> 0 <= j ->
  i + nrow window <= 2 ^ 31 -> j + ncol window <= 2 ^ 31 ->
  0 <= k < nrow window -> 0 <= l < ncol window ->
  neigh_step_checked data window i j k neigh l
  = Ok (if neigh_test data window i j k l
        then neigh ++ [neigh_value data window i j k l]
        else neigh).
Proof.
  intros Hd Hw Hi Hj Hib Hjb Hk Hl. unfold neigh_step_checked.
  assert (Hqr : 0 <= Z.quot (nrow window) 2 <= nrow window).
  { unfold nrow. rewrite half_dim. split; [apply Z.div_pos; lia|].
    apply Z.div_le_upper_bound; lia. }
  assert (Hqc : 0 <= Z.quot (ncol window) 2 <= ncol window).
  { unfold ncol. rewrite half_dim. split; [apply Z.div_pos; lia|].
    apply Z.div_le_upper_bound; lia. }
  rewrite int_add_ok by lia. simpl. rewrite int_sub_ok by lia. simpl.
  rewrite int_add_ok by lia. simpl. rewrite int_sub_ok by lia. simpl.
  unfold neigh_test, neigh_value.
  set (data_i := i + k - Z.quot (nrow window) 2).
  set (data_j := j + l - Z.quot (ncol window) 2).
  destruct (Z.leb_spec 0 data_i); simpl; [|done].
  destruct (Z.leb_spec 0 data_j); simpl; [|done].
  destruct (Z.ltb_spec data_i (nrow data)); simpl; [|done].
  destruct (Z.ltb_spec data_j (ncol data)); simpl; [|done].
  rewrite (mat_get_ok 0 window k l) by done. simpl.
  fold (window_at window k l).
  destruct (0 <? window_at window k l); simpl; [|done].
  rewrite (mat_get_ok NAN data data_i data_j) by (done || lia). simpl.
  fold (data_at data data_i data_j).
  destruct (isnan (data_at data data_i data_j)); simpl; done.
Qed.

Lemma build_neigh_checked_run (data : Matrix double) (window : Matrix Z)
    (i j : Z) :
  well_formed data -> well_formed window ->
  0 <= i -> 0 <= j ->
  i + nrow window <= 2 ^ 31 -> j + ncol window <= 2 ^ 31 ->
  build_neigh_checked data window i j = Ok (build_neigh data window i j).
Proof.
  intros Hd Hw Hi Hj Hib Hjb. unfold build_neigh_checked, build_neigh.
  apply foldM_ok. intros neigh k Hk%elem_of_seqZ.
  apply foldM_ok. intros neigh' l Hl%elem_of_seqZ.
  apply neigh_step_checked_ok; done || lia.
Qed.

(** X5. On matrices whose storage matches their dimensions, and with
    i + wrows and j + wcols within the range of [int], the scan of a cell
    (i, j) with i, j >= 0 overflows no [int] and indexes neither matrix
    out of bounds; it returns the neighbours of [build_neigh]. *)
Theorem build_neigh_checked_ok (data : Matrix double) (window : Matrix Z)
    (i j : Z) :
  well_formed data -> well_formed window ->
  0 <= i -> 0 <= j ->
  i + nrow window <= 2 ^ 31 -> j + ncol window <= 2 ^ 31 ->
  build_neigh_checked data window i j = Ok (build_neigh data window i j).
Proof. apply build_neigh_checked_run. Qed.

Lemma class_step_length (data : Matrix double) (window : Matrix Z)
    (variance : double) (i : Z) (js : list Z) (result : list double) (k : Z) :
  length (foldl (class_step data window variance i) (result, k) js).1
  = length result
  /\ (foldl (class_step data window variance i) (result, k) js).2
     = k + Z.of_nat (length js).
Proof.
  revert result k. induction js as [|j js IH]; intros result k; simpl.
  - split; [done|lia].
  - destruct (IH (<[Z.to_nat k :=
                     bayes_estimator_pixel (data_at data i j)
                       (build_neigh data window i j) variance]> result)
                 (k + 1)) as [IH1 IH2].
    split.
    + etransitivity; [exact IH1|apply length_insert].
    + etransitivity; [exact IH2|lia].
Qed.

Lemma class_step_checked_ok (data : Matrix double) (window : Matrix Z)
    (variance : double) (i j : Z) (result : list double) (k : Z) :
  well_formed data -> well_formed window ->
  0 <= i < nrow data -> i + nrow window <= 2 ^ 31 ->
  0 <= j < ncol data -> j + ncol window <= 2 ^ 31 ->
  0 <= k < Z.of_nat (length result) ->
  Z.of_nat (length result) < 2 ^ 31 ->
  class_step_checked data window variance i (result, k) j
  = Ok (class_step data window variance i (result, k) j).
Proof.
  intros Hd Hw Hi Hib Hj Hjb Hk Hmax. unfold class_step_checked, class_step.
  rewrite (mat_get_ok NAN data i j) by done. simpl.
  rewrite build_neigh_checked_run by (done || lia). simpl.
  unfold vec_set.
  destruct (Z.leb_spec 0 k); [|lia].
  destruct (Z.ltb_spec k (Z.of_nat (length result))); [|lia]. simpl.
  by rewrite int_add_ok by lia.
Qed.

Lemma class_row_checked_ok (data : Matrix double) (window : Matrix Z)
    (variance : double) (i : Z) (js : list Z) (result : list double) (k : Z) :
  well_formed data -> well_formed window ->
  0 <= i < nrow data -> i + nrow window <= 2 ^ 31 ->
  (forall j, j ∈ js -> 0 <= j < ncol data /\ j + ncol window <= 2 ^ 31) ->
  0 <= k -> k + Z.of_nat (length js) <= Z.of_nat (length result) ->
  Z.of_nat (length result) < 2 ^ 31 ->
  foldM (class_step_checked data window variance i) (result, k) js
  = Ok (foldl (class_step data window variance i) (result, k) js).
Proof.
  intros Hd Hw Hi Hib. revert result k.
  induction js as [|j js IH]; intros result k Hjs Hk Hlen Hmax; [done|].
  simpl in Hlen. destruct (Hjs j) as [Hj Hjb]; [by left|].
  change (foldM ?f ?a (j :: js)) with (a' ← f a j; foldM f a' js).
  rewrite class_step_checked_ok by (done || lia).
  change (foldl ?f ?a (j :: js)) with (foldl f (f a j) js).
  unfold class_step at 2.
  apply IH; [|lia|rewrite length_insert; lia|by rewrite length_insert].
  intros j' Hj'. apply Hjs. by right.
Qed.

(** The checked pass on a raster of fewer than 2^31 cells: every step is
    within the range of [int] and within the bounds of the matrices and of
    the output buffer. *)
Lemma bayes_estimator_class_checked_run (data : Matrix double)
    (window : Matrix Z) (variance : double) :
  well_formed data -> well_formed window ->
  nrow data + nrow window <= 2 ^ 31 ->
  ncol data + ncol window <= 2 ^ 31 ->
  nrow data * ncol data < 2 ^ 31 ->
  bayes_estimator_class_checked data window variance
  = Ok (bayes_estimator_class data window variance).
Proof.
  intros Hd Hw Hrb Hcb Hsize.
  unfold bayes_estimator_class_checked, bayes_estimator_class, int_mul, in_int.
  assert (Hnn : 0 <= nrow data * ncol data) by (unfold nrow, ncol; nia).
  destruct (Z.leb_spec (- 2 ^ 31) (nrow data * ncol data)); [|lia].
  destruct (Z.ltb_spec (nrow data * ncol data) (2 ^ 31)); [|lia]. simpl.
  set (result := replicate (Z.to_nat (nrow data * ncol data)) (of_int 0)).
  assert (Hrows : forall (rs : list Z) (r : list double) (k : Z),
    (forall i, i ∈ rs -> 0 <= i < nrow data) ->
    0 <= k ->
    k + Z.of_nat (length rs) * ncol data <= Z.of_nat (length r) ->
    Z.of_nat (length r) < 2 ^ 31 ->
    foldM (fun st i =>
             foldM (class_step_checked data window variance i) st
                   (seqZ 0 (ncol data))) (r, k) rs
    = Ok (foldl (fun st i =>
                   foldl (class_step data window variance i) st
                         (seqZ 0 (ncol data))) (r, k) rs)).
  { induction rs as [|i rs IH]; intros r k Hrs Hk Hlen Hmax; [done|].
    change (foldM ?f ?a (i :: rs)) with (a' ← f a i; foldM f a' rs).
    change (foldl ?f ?a (i :: rs)) with (foldl f (f a i) rs). cbv beta.
    assert (Hcols : Z.of_nat (length (seqZ 0 (ncol data))) = ncol data)
      by (rewrite length_seqZ; unfold ncol; lia).
    simpl in Hlen.
    rewrite class_row_checked_ok; try done.
    - simpl.
      destruct (class_step_length data window variance i
                  (seqZ 0 (ncol data)) r k) as [Hl1 Hl2].
      destruct (foldl (class_step data window variance i) (r, k)
                      (seqZ 0 (ncol data))) as [r' k'] eqn:E.
      simpl in Hl1, Hl2. apply IH.
      + intros i' Hi'. apply Hrs. by right.
      + lia.
      + rewrite Hl1, Hl2, Hcols. lia.
      + by rewrite Hl1.
    - apply Hrs. by left.
    - assert (0 <= i < nrow data) by (apply Hrs; by left). lia.
    - intros j Hj%elem_of_seqZ. lia.
    - rewrite Hcols. nia.
  }
  rewrite Hrows.
  - done.
  - intros i Hi%elem_of_seqZ. lia.
  - done.
  - unfold result. rewrite length_replicate, length_seqZ.
    unfold nrow, ncol in *. nia.
  - unfold result. rewrite length_replicate. lia.
Qed.

(** X6. On matrices whose storage matches their dimensions, with
    nrow + wrows and ncol + wcols at most 2^31 and fewer than 2^31 cells,
    the pass overflows no [int], reads no matrix and writes no slot out of
    bounds; it returns the output of [bayes_estimator_class]. *)
Theorem bayes_estimator_class_checked_ok (data : Matrix double)
    (window : Matrix Z) (variance : double) :
  well_formed data -> well_formed window ->
  nrow data + nrow window <= 2 ^ 31 ->
  ncol data + ncol window <= 2 ^ 31 ->
  nrow data * ncol data < 2 ^ 31 ->
  bayes_estimator_class_checked data window variance
  = Ok (bayes_estimator_class data window variance).
Proof. apply bayes_estimator_class_checked_run. Qed.

(** C5. For every raster of shape nrow x ncol with fewer than 2^31 cells,
    the pass, run with its [int] arithmetic and its accesses checked,
    returns a flat sequence of length exactly nrow * ncol in row-major
    order: the element at flat index i * ncol + j is
    estimate(raster(i,j), gather(raster, window, i, j), variance), for
    every cell (i, j).  The matrices hold as many elements as their
    dimensions say, and nrow + wrows and ncol + wcols are at most 2^31, so
    that the index arithmetic of the scan stays in range.  Without the
    bound on the number of cells the size nrows * ncols of the buffer
    overflows, see [row_major_overflows_at_2_31_cells]. *)
Theorem bayes_estimator_class_row_major (data : Matrix double)
    (window : Matrix Z) (variance : double) :
  well_formed data -> well_formed window ->
  nrow data + nrow window <= 2 ^ 31 ->
  ncol data + ncol window <= 2 ^ 31 ->
  nrow data * ncol data < 2 ^ 31 ->
  exists out,
    bayes_estimator_class_checked data window variance = Ok out
    /\ Z.of_nat (length out) = nrow data * ncol data
    /\ forall i j, 0 <= i < nrow data -> 0 <= j < ncol data ->
         out !! Z.to_nat (i * ncol data + j)
         = Some (bayes_estimator_pixel (data_at data i j)
                   (build_neigh data window i j) variance).
Proof.
  intros Hd Hw Hrb Hcb Hsize.
  exists (bayes_estimator_class data window variance).
  split; [by apply bayes_estimator_class_checked_run|].
  split; [apply bayes_estimator_class_length|].
  intros i j Hi Hj.
  by apply (bayes_estimator_class_lookup data window variance i j).
Qed.

(** X7. A raster of 2^31 cells or more is beyond the pass: the size of
    the output buffer, nrows * ncols, overflows [int] before any cell is
    estimated. *)
Theorem bayes_estimator_class_checked_overflow (data : Matrix double)
    (window : Matrix Z) (variance : double) :
  2 ^ 31 <= nrow data * ncol data ->
  bayes_estimator_class_checked data window variance = Fault SignedOverflow.
Proof.
  intros Hbig. unfold bayes_estimator_class_checked, int_mul, in_int.
  destruct (Z.ltb_spec (nrow data * ncol data) (2 ^ 31)); [lia|].
  by rewrite andb_false_r.
Qed.

End CheckedFacts.

(** C5, as stated for every raster, fails from 2^31 cells on.  For the
    raster of 65536 x 32768 cells, whose storage is as long as its
    dimensions say, the product nrows * ncols is 2^31: it does not fit
    the [int] that sizes the output buffer, the multiplication overflows
    and the pass returns no sequence, of length nrow * ncol or other. *)
Lemma row_major_overflows_at_2_31_cells :
  well_formed raster_large /\ well_formed window_ones
  /\ nrow raster_large * ncol raster_large = 2 ^ 31
  /\ bayes_estimator_class_checked raster_large window_ones (XFin 1)
     = Fault SignedOverflow
  /\ ~ (exists out,
          bayes_estimator_class_checked raster_large window_ones (XFin 1)
          = Ok out).
Proof.
  assert (Hsize : nrow raster_large * ncol raster_large = 2 ^ 31).
  { unfold nrow, ncol, raster_large. cbn [mat_nrow mat_ncol].
    rewrite !Z2Nat.id by lia. reflexivity. }
  assert (Hrun : bayes_estimator_class_checked raster_large window_ones
                   (XFin 1) = Fault SignedOverflow).
  { unfold bayes_estimator_class_checked, int_mul. rewrite Hsize.
    reflexivity. }
  split.
  { unfold well_formed, raster_large. cbn [mat_data mat_nrow mat_ncol].
    apply length_replicate. }
  split; [reflexivity|]. split; [exact Hsize|]. split; [exact Hrun|].
  intros [out Hout]. rewrite Hrun in Hout. discriminate.
Qed.

(** * Further properties of the estimator, in exact arithmetic *)

(** Unfolds the operations of [DoubleOps] at [xreal]. *)
Ltac xunfold :=
  change (@fadd xreal _) with xadd;
  change (@fsub xreal _) with xsub;
  change (@fmul xreal _) with xmul;
  change (@fdiv xreal _) with xdiv;
  change (@flog xreal _) with xlog;
  change (@isnan xreal _) with xisnan;
  change (@isfinite xreal _) with xisfinite;
  change (@NAN xreal _) with XNaN;
  change (@of_int xreal _) with (fun z => XFin (IZR z)); cbv beta.

Section PixelMore.

Local Open Scope R_scope.

(** *** Finite values *)

Lemma in_scale_fin (a : xreal) : in_scale a -> a = XFin (to_R a).
Proof. by destruct a. Qed.

Lemma spec_logit_in_scale (a : xreal) :
  in_scale a -> spec_logit a = XFin (logit_R (to_R a)).
Proof.
  destruct a as [| |r]; try done. intros Hr. by apply spec_logit_fin.
Qed.

Lemma spec_logit_finite_inv (a : xreal) :
  xisfinite (spec_logit a) = true -> in_scale a.
Proof.
  destruct a as [|s|r]; unfold spec_logit; xunfold; simpl; try done.
  unfold Rzero at 1. destruct (Req_dec_T (10000 - r) 0) as [E|E].
  - unfold Rzero. destruct (Req_dec_T r 0); [done|]. simpl.
    rewrite Rneg_false by lra. done.
  - simpl. unfold Rneg, Rzero.
    destruct (Rlt_dec (r / (10000 - r)) 0) as [Hn|Hn]; [done|].
    destruct (Req_dec_T (r / (10000 - r)) 0) as [Hz|Hz]; [done|].
    intros _.
    assert (Hpos : 0 < r / (10000 - r)) by lra.
    destruct (Rlt_dec 0 (10000 - r)) as [Hd|Hd].
    + assert (0 < r); [|lra].
      replace r with (r / (10000 - r) * (10000 - r)) by (field; lra).
      by apply Rmult_lt_0_compat.
    + exfalso. assert (Hd' : 0 < - (10000 - r)) by lra.
      assert (0 < - r); [|lra].
      replace (- r) with (r / (10000 - r) * - (10000 - r)) by (field; lra).
      by apply Rmult_lt_0_compat.
Qed.

Lemma map_spec_logit_in_scale (neigh : list xreal) :
  Forall in_scale neigh ->
  map spec_logit neigh = map XFin (map logit_R (map to_R neigh)).
Proof.
  induction 1 as [|a neigh Ha _ IH]; [done|]. cbn [map].
  by rewrite IH, spec_logit_in_scale.
Qed.

Lemma total_fin (rs : list R) : total (map XFin rs) = XFin (sum_R rs).
Proof.
  induction rs as [|r rs IH]; [done|].
  change (xadd (XFin r) (total (map XFin rs)) = XFin (sum_R (r :: rs))).
  by rewrite IH.
Qed.

Lemma spec_mean_fin (rs : list R) :
  (1 <= length rs)%nat -> spec_mean (map XFin rs) = XFin (mean_R rs).
Proof.
  intros Hn. unfold spec_mean. xunfold.
  rewrite total_fin, length_map, <- INR_IZR_INZ. simpl.
  by rewrite Rzero_false by (apply not_0_INR; lia).
Qed.

Lemma spec_variance_fin (rs : list R) :
  (2 <= length rs)%nat -> spec_variance (map XFin rs) = XFin (var_R rs).
Proof.
  intros Hn. unfold spec_variance. rewrite spec_mean_fin by lia. xunfold.
  rewrite map_map.
  rewrite (map_ext _ (fun r => XFin ((r - mean_R rs) * (r - mean_R rs))))
    by done.
  rewrite <- (map_map (fun r => (r - mean_R rs) * (r - mean_R rs)) XFin).
  rewrite total_fin, length_map, minus_IZR, <- INR_IZR_INZ. simpl.
  assert (2 <= INR (length rs)) by (apply (le_INR 2); lia).
  by rewrite Rzero_false by lra.
Qed.

Lemma sum_squares_nonneg (m : R) (rs : list R) :
  0 <= sum_R (map (fun r => (r - m) * (r - m)) rs).
Proof.
  induction rs as [|r rs IH]; simpl; [lra|].
  change (0 <= (r - m) * (r - m)
               + sum_R (map (fun r => (r - m) * (r - m)) rs)).
  set (rest := sum_R _) in *.
  pose proof (Rle_0_sqr (r - m)) as Hsq. unfold Rsqr in Hsq. lra.
Qed.

Lemma var_R_nonneg (rs : list R) : (2 <= length rs)%nat -> 0 <= var_R rs.
Proof.
  intros Hn. unfold var_R.
  assert (2 <= INR (length rs)) by (apply (le_INR 2); lia).
  apply Rmult_le_pos; [apply sum_squares_nonneg|].
  apply Rlt_le, Rinv_0_lt_compat. lra.
Qed.

(** The estimate on values strictly inside the scale. *)
Lemma bayes_estimator_pixel_fin (p : xreal) (neigh : list xreal) (r : R) :
  in_scale p -> Forall in_scale neigh -> (2 <= length neigh)%nat ->
  let ls := map logit_R (map to_R neigh) in
  r + var_R ls <> 0 ->
  bayes_estimator_pixel p neigh (XFin r)
  = XFin (var_R ls / (r + var_R ls) * logit_R (to_R p)
          + r / (r + var_R ls) * mean_R ls).
Proof.
  intros Hp Hn Hlen ls Hrv.
  rewrite bayes_estimator_pixel_blend by by destruct p.
  unfold spec_blend.
  rewrite map_spec_logit_in_scale, spec_logit_in_scale by done.
  fold ls.
  rewrite spec_variance_fin, spec_mean_fin
    by (unfold ls; rewrite !length_map; lia).
  xunfold. simpl. by rewrite Rzero_false.
Qed.

(** *** What is not finite stays so *)

Lemma xadd_nonfinite_l (a b : xreal) :
  xisfinite a = false -> xisfinite (xadd a b) = false.
Proof. destruct a as [|s|r], b as [|t|q]; simpl; try done.
  by destruct (Bool.eqb s t). Qed.

Lemma xadd_nonfinite_r (a b : xreal) :
  xisfinite b = false -> xisfinite (xadd a b) = false.
Proof. rewrite xadd_comm. apply xadd_nonfinite_l. Qed.

Lemma xmul_nonfinite_r (a b : xreal) :
  xisfinite b = false -> xisfinite (xmul a b) = false.
Proof.
  destruct a as [|s|r], b as [|t|q]; simpl; try done.
  by destruct (Rzero r).
Qed.

Lemma xdiv_count_nonfinite (a : xreal) (n : R) :
  xisfinite a = false -> xisfinite (xdiv a (XFin n)) = false.
Proof. by destruct a. Qed.

Lemma total_finite_all (l : list xreal) :
  xisfinite (total l) = true -> Forall (fun a => xisfinite a = true) l.
Proof.
  destruct (total l) as [| |sigma] eqn:E; try done. intros _.
  destruct (total_finite l sigma E) as (rs & -> & _).
  apply Forall_forall. intros a Ha.
  apply in_map_iff in Ha. by destruct Ha as (r & <- & _).
Qed.

(** X8. With a positive real variance the estimate is finite exactly when
    the centre value lies strictly between 0 and 10000, there are at least
    two neighbours, and every neighbour lies strictly between 0 and
    10000; otherwise it is NaN or infinite. *)
Theorem bayes_estimator_pixel_finite_iff (p : xreal) (neigh : list xreal)
    (r : R) :
  0 < r ->
  isfinite (bayes_estimator_pixel p neigh (XFin r)) = true
  <-> in_scale p /\ (2 <= length neigh)%nat /\ Forall in_scale neigh.
Proof.
  intros Hr. split.
  - intros Hfin.
    destruct (isnan p) eqn:Hnan.
    { unfold bayes_estimator_pixel in Hfin. by rewrite Hnan in Hfin. }
    destruct (le_lt_dec (length neigh) 1) as [Hshort|Hlen].
    { pose proof (bayes_estimator_pixel_short p neigh (XFin r) Hnan Hshort)
        as Hn.
      by destruct (bayes_estimator_pixel p neigh (XFin r)). }
    rewrite bayes_estimator_pixel_blend in Hfin by done.
    unfold spec_blend in Hfin. revert Hfin. xunfold. intros Hfin.
    set (L := map spec_logit neigh) in *.
    destruct (xisfinite (xmul (xdiv (spec_variance L)
                                    (xadd (XFin r) (spec_variance L)))
                              (spec_logit p))) eqn:E1;
      [|by rewrite xadd_nonfinite_l in Hfin].
    destruct (xisfinite (xmul (xdiv (XFin r)
                                    (xadd (XFin r) (spec_variance L)))
                              (spec_mean L))) eqn:E2;
      [|by rewrite xadd_nonfinite_r in Hfin].
    destruct (xisfinite (spec_logit p)) eqn:Ex;
      [|by rewrite xmul_nonfinite_r in E1].
    destruct (xisfinite (spec_mean L)) eqn:Em;
      [|by rewrite xmul_nonfinite_r in E2].
    split; [by apply spec_logit_finite_inv|]. split; [lia|].
    unfold spec_mean in Em. revert Em. xunfold. intros Em.
    destruct (xisfinite (total L)) eqn:Et;
      [|by rewrite xdiv_count_nonfinite in Em].
    apply total_finite_all in Et. unfold L in Et.
    apply Forall_forall. intros a Ha. apply spec_logit_finite_inv.
    rewrite Forall_forall in Et. apply Et. by apply in_map.
  - intros (Hp & Hlen & Hn).
    rewrite bayes_estimator_pixel_fin; try done.
    pose proof (var_R_nonneg (map logit_R (map to_R neigh))) as Hv.
    rewrite !length_map in Hv. specialize (Hv Hlen). lra.
Qed.

(** *** The blend between the centre and the neighbourhood *)

Lemma logit_R_monotone (r q : R) :
  0 < r < 10000 -> 0 < q < 10000 -> r <= q -> logit_R r <= logit_R q.
Proof.
  intros Hr Hq Hle. unfold logit_R.
  destruct (Req_dec_T r q) as [->|Hne]; [lra|].
  apply Rlt_le, ln_increasing.
  - apply Rdiv_lt_0_compat; lra.
  - apply (Rmult_lt_reg_r ((10000 - r) * (10000 - q)));
      [apply Rmult_lt_0_compat; lra|].
    replace (r / (10000 - r) * ((10000 - r) * (10000 - q)))
      with (r * (10000 - q)) by (field; lra).
    replace (q / (10000 - q) * ((10000 - r) * (10000 - q)))
      with (q * (10000 - r)) by (field; lra).
    lra.
Qed.

Lemma logit_R_injective (r q : R) :
  0 < r < 10000 -> 0 < q < 10000 -> logit_R r = logit_R q -> r = q.
Proof.
  intros Hr Hq E.
  destruct (Rle_lt_dec r q) as [Hle|Hlt].
  - destruct (Req_dec_T r q) as [->|Hne]; [done|].
    assert (r < q) by lra. exfalso.
    assert (logit_R r < logit_R q); [|lra].
    unfold logit_R. apply ln_increasing; [apply Rdiv_lt_0_compat; lra|].
    apply (Rmult_lt_reg_r ((10000 - r) * (10000 - q)));
      [apply Rmult_lt_0_compat; lra|].
    replace (r / (10000 - r) * ((10000 - r) * (10000 - q)))
      with (r * (10000 - q)) by (field; lra).
    replace (q / (10000 - q) * ((10000 - r) * (10000 - q)))
      with (q * (10000 - r)) by (field; lra).
    lra.
  - exfalso. assert (logit_R q < logit_R r); [|lra].
    unfold logit_R. apply ln_increasing; [apply Rdiv_lt_0_compat; lra|].
    apply (Rmult_lt_reg_r ((10000 - r) * (10000 - q)));
      [apply Rmult_lt_0_compat; lra|].
    replace (r / (10000 - r) * ((10000 - r) * (10000 - q)))
      with (r * (10000 - q)) by (field; lra).
    replace (q / (10000 - q) * ((10000 - r) * (10000 - q)))
      with (q * (10000 - r)) by (field; lra).
    lra.
Qed.

(** X9. With a positive real variance and all values strictly inside the
    scale, the estimate is a convex combination of the centre's transform
    and the mean of the neighbours' transforms: it lies between the two. *)
Theorem bayes_estimator_pixel_between (p : xreal) (neigh : list xreal)
    (r : R) :
  0 < r -> in_scale p -> (2 <= length neigh)%nat -> Forall in_scale neigh ->
  let x := logit_R (to_R p) in
  let m := mean_R (map logit_R (map to_R neigh)) in
  exists y, bayes_estimator_pixel p neigh (XFin r) = XFin y
            /\ Rmin x m <= y <= Rmax x m.
Proof.
  intros Hr Hp Hlen Hn x m.
  pose proof (var_R_nonneg (map logit_R (map to_R neigh))) as Hv.
  rewrite !length_map in Hv. specialize (Hv Hlen).
  eexists. split; [apply bayes_estimator_pixel_fin; try done; lra|].
  fold x m. set (v := var_R (map logit_R (map to_R neigh))) in *.
  set (w := v / (r + v)).
  assert (Hw : 0 <= w < 1).
  { unfold w. split.
    - apply Rmult_le_pos; [done|]. apply Rlt_le, Rinv_0_lt_compat. lra.
    - apply (Rmult_lt_reg_r (r + v)); [lra|].
      replace (v / (r + v) * (r + v)) with v by (field; lra). lra. }
  replace (r / (r + v)) with (1 - w) by (unfold w; field; lra).
  unfold Rmin, Rmax. destruct (Rle_dec x m) as [Hxm|Hxm].
  - assert (0 <= w * (m - x)) by (apply Rmult_le_pos; lra).
    assert (0 <= (1 - w) * (m - x)) by (apply Rmult_le_pos; lra).
    lra.
  - assert (0 <= w * (x - m)) by (apply Rmult_le_pos; lra).
    assert (0 <= (1 - w) * (x - m)) by (apply Rmult_le_pos; lra).
    lra.
Qed.

(** X10. The estimate does not decrease when the centre value increases,
    neighbours and variance unchanged (values strictly inside the scale,
    positive real variance). *)
Theorem bayes_estimator_pixel_monotone (p p' : xreal) (neigh : list xreal)
    (r : R) :
  0 < r -> in_scale p -> in_scale p' -> to_R p <= to_R p' ->
  (2 <= length neigh)%nat -> Forall in_scale neigh ->
  exists y y', bayes_estimator_pixel p neigh (XFin r) = XFin y
               /\ bayes_estimator_pixel p' neigh (XFin r) = XFin y'
               /\ y <= y'.
Proof.
  intros Hr Hp Hp' Hle Hlen Hn.
  pose proof (var_R_nonneg (map logit_R (map to_R neigh))) as Hv.
  rewrite !length_map in Hv. specialize (Hv Hlen).
  do 2 eexists. split; [apply bayes_estimator_pixel_fin; try done; lra|].
  split; [apply bayes_estimator_pixel_fin; try done; lra|].
  set (v := var_R (map logit_R (map to_R neigh))) in *.
  assert (Hx : logit_R (to_R p) <= logit_R (to_R p')).
  { destruct p as [| |a], p' as [| |b]; try done. by apply logit_R_monotone. }
  assert (Hw : 0 <= v / (r + v)).
  { apply Rmult_le_pos; [done|]. apply Rlt_le, Rinv_0_lt_compat. lra. }
  assert (0 <= v / (r + v) * (logit_R (to_R p') - logit_R (to_R p)))
    by (apply Rmult_le_pos; lra).
  lra.
Qed.

(** X11. When all the neighbours, two or more, hold one same value, the
    estimate is the transform of that value, whatever the centre value
    (values strictly inside the scale, positive real variance). *)
Theorem bayes_estimator_pixel_constant (p a : xreal) (n : nat) (r : R) :
  0 < r -> in_scale p -> in_scale a -> (2 <= n)%nat ->
  bayes_estimator_pixel p (replicate n a) (XFin r) = spec_logit a.
Proof.
  intros Hr Hp Ha Hn.
  rewrite bayes_estimator_pixel_blend by by destruct p.
  rewrite (spec_logit_in_scale a Ha).
  apply (spec_blend_constant p a n r (logit_R (to_R p))); try done;
    by apply spec_logit_in_scale.
Qed.

(** *** The variance parameter 0 *)

Lemma sum_squares_zero (m : R) (rs : list R) :
  sum_R (map (fun r => (r - m) * (r - m)) rs) = 0 ->
  forall r, In r rs -> r = m.
Proof.
  induction rs as [|q rs IH]; intros Hs r Hr; [done|].
  change ((q - m) * (q - m) + sum_R (map (fun r => (r - m) * (r - m)) rs) = 0)
    in Hs.
  pose proof (sum_squares_nonneg m rs) as Hrest.
  pose proof (Rle_0_sqr (q - m)) as Hsq. unfold Rsqr in Hsq.
  assert (Hq : (q - m) * (q - m) = 0) by lra.
  destruct Hr as [<-|Hr].
  - apply Rmult_integral in Hq. lra.
  - apply IH; [lra|done].
Qed.

(** X12. With the variance parameter 0 and neighbours strictly inside the
    scale that do not all hold the same value, the estimate is the
    transform of the centre value, whatever the centre value is (in the
    scale or not, infinite or the missing value): nothing is smoothed. *)
Theorem zero_variance_keeps_centre (p : xreal) (neigh : list xreal)
    (a b : xreal) :
  Forall in_scale neigh ->
  In a neigh -> In b neigh -> a <> b ->
  bayes_estimator_pixel p neigh (XFin 0) = spec_logit p.
Proof.
  intros Hn Ha Hb Hab.
  assert (Hlen : (2 <= length neigh)%nat).
  { destruct neigh as [|c [|d neigh]]; simpl in *; [done| |lia].
    destruct Ha as [<-|[]], Hb as [<-|[]]. done. }
  set (ls := map logit_R (map to_R neigh)).
  assert (Hv : var_R ls <> 0).
  { intros Hz. unfold var_R in Hz.
    assert (2 <= INR (length ls))
      by (apply (le_INR 2); unfold ls; rewrite !length_map; lia).
    assert (Hs : sum_R (map (fun r => (r - mean_R ls) * (r - mean_R ls)) ls)
                 = 0).
    { apply Rmult_integral in Hz as [Hz|Hz]; [done|].
      exfalso. revert Hz. apply Rinv_neq_0_compat. lra. }
    pose proof (sum_squares_zero _ _ Hs) as Heq.
    rewrite Forall_forall in Hn.
    pose proof (Hn a Ha) as Hsa. pose proof (Hn b Hb) as Hsb.
    assert (Ea : logit_R (to_R a) = mean_R ls)
      by (apply Heq; unfold ls; by do 2 apply in_map).
    assert (Eb : logit_R (to_R b) = mean_R ls)
      by (apply Heq; unfold ls; by do 2 apply in_map).
    destruct a as [| |ra], b as [| |rb]; try done. simpl in *.
    apply Hab. f_equal. apply logit_R_injective; try done. lra. }
  destruct (isnan p) eqn:Hnan.
  { unfold bayes_estimator_pixel. rewrite Hnan. by destruct p. }
  rewrite bayes_estimator_pixel_blend by done. unfold spec_blend.
  rewrite map_spec_logit_in_scale by done. fold ls.
  rewrite spec_variance_fin, spec_mean_fin
    by (unfold ls; rewrite !length_map; lia).
  generalize (spec_logit p). intros x.
  xunfold. simpl. rewrite Rzero_false by lra.
  replace (var_R ls / (0 + var_R ls)) with 1 by (field; lra).
  replace (0 / (0 + var_R ls)) with 0 by (field; lra).
  destruct x as [|s|x]; simpl.
  - done.
  - rewrite Rzero_false, Rneg_false by lra. done.
  - f_equal. lra.
Qed.

(** X13. With the variance parameter 0 and neighbours that all hold one
    same value, the weights are 0 / 0 and the estimate is NaN, whatever
    the centre value and the number of neighbours. *)
Theorem zero_variance_flat_is_nan (p a : xreal) (n : nat) :
  in_scale a ->
  isnan (bayes_estimator_pixel p (replicate n a) (XFin 0)) = true.
Proof.
  intros Ha. destruct (isnan p) eqn:Hnan.
  { unfold bayes_estimator_pixel. by rewrite Hnan. }
  destruct (le_lt_dec n 1) as [Hshort|Hn].
  { apply bayes_estimator_pixel_short; [done|]. by rewrite length_replicate. }
  rewrite bayes_estimator_pixel_blend by done. unfold spec_blend.
  rewrite map_replicate, (spec_logit_in_scale a Ha).
  rewrite spec_variance_replicate by lia. xunfold. simpl.
  replace (0 + 0) with 0 by lra. by rewrite !Rzero_0.
Qed.

End PixelMore.

(** * Complementary values *)

Section Complement.

Local Open Scope R_scope.

Lemma Rneg_true (r : R) : r < 0 -> Rneg r = true.
Proof. intros Hr. unfold Rneg. by destruct (Rlt_dec r 0). Qed.

Lemma Rzero_opp (r : R) : Rzero (- r) = Rzero r.
Proof.
  unfold Rzero. destruct (Req_dec_T (- r) 0), (Req_dec_T r 0); try done; lra.
Qed.

Lemma Rneg_opp (r : R) : r <> 0 -> Rneg (- r) = negb (Rneg r).
Proof.
  intros Hr. unfold Rneg.
  destruct (Rlt_dec (- r) 0), (Rlt_dec r 0); try done; lra.
Qed.

Lemma quotient_neg_pos (a b : R) : a < 0 -> 0 < b -> a / b < 0.
Proof.
  intros Ha Hb. assert (0 < - a / b) by (apply Rdiv_lt_0_compat; lra).
  replace (a / b) with (- (- a / b)) by (field; lra). lra.
Qed.

Lemma quotient_pos_neg (a b : R) : 0 < a -> b < 0 -> a / b < 0.
Proof.
  intros Ha Hb. assert (0 < a / - b) by (apply Rdiv_lt_0_compat; lra).
  replace (a / b) with (- (a / - b)) by (field; lra). lra.
Qed.

Lemma xneg_add (a b : xreal) : xneg (xadd a b) = xadd (xneg a) (xneg b).
Proof.
  destruct a as [|s|r], b as [|t|q]; simpl; try done.
  - by destruct s, t.
  - f_equal. lra.
Qed.

Lemma xneg_sub (a b : xreal) : xneg (xsub a b) = xsub (xneg a) (xneg b).
Proof.
  destruct a as [|s|r], b as [|t|q]; simpl; try done.
  - by destruct s, t.
  - f_equal. lra.
Qed.

Lemma xmul_neg_r (a b : xreal) : xmul a (xneg b) = xneg (xmul a b).
Proof.
  destruct a as [|s|r], b as [|t|q]; simpl; try done.
  - by destruct s, t.
  - rewrite Rzero_opp. unfold Rzero. destruct (Req_dec_T q 0); [done|].
    simpl. rewrite Rneg_opp by done. by destruct s, (Rneg q).
  - destruct (Rzero r); [done|]. simpl. by destruct (Rneg r), t.
  - f_equal. lra.
Qed.

Lemma xmul_neg_neg (a b : xreal) : xmul (xneg a) (xneg b) = xmul a b.
Proof.
  destruct a as [|s|r], b as [|t|q]; simpl; try done.
  - by destruct s, t.
  - rewrite Rzero_opp. unfold Rzero. destruct (Req_dec_T q 0); [done|].
    rewrite Rneg_opp by done. by destruct s, (Rneg q).
  - rewrite Rzero_opp. unfold Rzero. destruct (Req_dec_T r 0); [done|].
    rewrite Rneg_opp by done. by destruct (Rneg r), t.
  - f_equal. lra.
Qed.

Lemma xdiv_neg_l (a : xreal) (n : R) :
  xdiv (xneg a) (XFin n) = xneg (xdiv a (XFin n)).
Proof.
  destruct a as [|s|r]; simpl; try done.
  - by destruct s, (Rneg n).
  - destruct (Req_dec_T n 0) as [->|Hn].
    + rewrite Rzero_0, Rzero_opp. unfold Rzero.
      destruct (Req_dec_T r 0); [done|]. simpl. by rewrite Rneg_opp.
    + rewrite (Rzero_false n) by done. simpl. f_equal. by field.
Qed.

Lemma total_neg (l : list xreal) : total (map xneg l) = xneg (total l).
Proof.
  induction l as [|a l IH].
  - simpl. f_equal. lra.
  - change (xadd (xneg a) (total (map xneg l)) = xneg (xadd a (total l))).
    by rewrite IH, xneg_add.
Qed.

Lemma spec_mean_neg (l : list xreal) :
  spec_mean (map xneg l) = xneg (spec_mean l).
Proof.
  unfold spec_mean. xunfold. by rewrite total_neg, length_map, xdiv_neg_l.
Qed.

Lemma spec_variance_neg (l : list xreal) :
  spec_variance (map xneg l) = spec_variance l.
Proof.
  unfold spec_variance. rewrite spec_mean_neg, length_map, map_map. xunfold.
  f_equal. f_equal. apply map_ext. intros a.
  by rewrite <- xneg_sub, xmul_neg_neg.
Qed.

Lemma spec_logit_complement (a : xreal) :
  spec_logit (xsub (XFin 10000) a) = xneg (spec_logit a).
Proof.
  destruct a as [|s|r]; unfold spec_logit; xunfold; simpl; try done.
  replace (10000 - (10000 - r)) with r by lra.
  destruct (Rlt_dec r 0) as [Hneg|Hnn].
  { rewrite (Rzero_false r), (Rzero_false (10000 - r)) by lra. simpl.
    rewrite (Rneg_true ((10000 - r) / r)) by (apply quotient_pos_neg; lra).
    by rewrite (Rneg_true (r / (10000 - r))) by (apply quotient_neg_pos; lra). }
  destruct (Req_dec_T r 0) as [->|Hnz].
  { rewrite Rzero_0, (Rzero_false (10000 - 0)) by lra. simpl.
    rewrite (Rneg_false (10000 - 0)) by lra. simpl.
    replace (0 / (10000 - 0)) with 0 by (field; lra).
    by rewrite (Rneg_false 0), Rzero_0 by lra. }
  destruct (Rlt_dec r 10000) as [Hlt|Hge].
  { rewrite (Rzero_false r), (Rzero_false (10000 - r)) by lra. simpl.
    assert (0 < (10000 - r) / r) by (apply Rdiv_lt_0_compat; lra).
    assert (0 < r / (10000 - r)) by (apply Rdiv_lt_0_compat; lra).
    rewrite !Rneg_false, !Rzero_false by lra. simpl. f_equal.
    rewrite <- ln_Rinv by done. f_equal. field. lra. }
  destruct (Req_dec_T r 10000) as [->|Hne].
  { rewrite (Rzero_false 10000) by lra.
    replace (10000 - 10000) with 0 by lra. rewrite Rzero_0. simpl.
    replace (0 / 10000) with 0 by (field; lra).
    rewrite (Rneg_false 0), Rzero_0 by lra.
    by rewrite (Rneg_false 10000) by lra. }
  rewrite (Rzero_false r), (Rzero_false (10000 - r)) by lra. simpl.
  rewrite (Rneg_true ((10000 - r) / r)) by (apply quotient_neg_pos; lra).
  by rewrite (Rneg_true (r / (10000 - r))) by (apply quotient_pos_neg; lra).
Qed.

(** X14. Replacing the centre value and every neighbour by its complement
    to 10000 changes the estimate into its opposite: the transform is odd
    about 5000, the mean follows and the variance is unchanged. *)
Theorem bayes_estimator_pixel_complement (p : xreal) (neigh : list xreal)
    (variance : xreal) :
  bayes_estimator_pixel (fsub (of_int 10000) p)
                        (map (fsub (of_int 10000)) neigh) variance
  = xneg (bayes_estimator_pixel p neigh variance).
Proof.
  xunfold. destruct (isnan p) eqn:Hnan.
  { unfold bayes_estimator_pixel. rewrite Hnan. by destruct p. }
  rewrite !bayes_estimator_pixel_blend by (done || by destruct p).
  unfold spec_blend. rewrite map_map.
  rewrite (map_ext _ (fun a => xneg (spec_logit a)))
    by (intros a; apply spec_logit_complement).
  rewrite <- (map_map spec_logit xneg).
  rewrite spec_variance_neg, spec_mean_neg, spec_logit_complement. xunfold.
  by rewrite xneg_add, !xmul_neg_r.
Qed.

End Complement.

(** * The scan and the pass in exact arithmetic *)

Section ExactScan.

Local Open Scope R_scope.

Lemma neigh_value_not_nan (d : xreal) (w : Z) :
  isnan d = false -> (0 < w)%Z -> isnan (fmul d (of_int w)) = false.
Proof.
  intros Hd Hw. xunfold. destruct d as [|s|r]; simpl; try done.
  assert (0 < IZR w) by by apply IZR_lt.
  by rewrite Rzero_false by lra.
Qed.

(** X15. No gathered value is NaN: a neighbour is the product of a raster
    value that is not NaN and a positive weight. *)
Theorem build_neigh_no_nan (data : Matrix xreal) (window : Matrix Z)
    (i j : Z) (v : xreal) :
  In v (build_neigh data window i j) -> isnan v = false.
Proof.
  rewrite build_neigh_filter. intros Hv. apply in_map_iff in Hv.
  destruct Hv as ([k l] & <- & Hsel). simpl.
  apply list_elem_of_In, elem_of_selected in Hsel as [_ Ht].
  apply neigh_test_true in Ht as (_ & _ & _ & _ & Hw & Hnan).
  unfold neigh_value. unfold nrow, ncol. rewrite !half_dim.
  by apply neigh_value_not_nan.
Qed.

Lemma window_at_scale (c : Z) (window : Matrix Z) (k l : Z) :
  window_at (scale_window c window) k l = (c * window_at window k l)%Z.
Proof.
  unfold window_at, mat_at, scale_window, nrow. simpl.
  rewrite <- (Z.mul_0_r c) at 1. apply map_nth.
Qed.

Lemma xmul_scale (d : xreal) (c w : Z) :
  (0 < c)%Z -> (0 < w)%Z ->
  xmul d (XFin (IZR (c * w))) = xmul (xmul d (XFin (IZR w))) (XFin (IZR c)).
Proof.
  intros Hc Hw. rewrite mult_IZR.
  assert (0 < IZR c) by by apply IZR_lt.
  assert (0 < IZR w) by by apply IZR_lt.
  assert (0 < IZR c * IZR w) by by apply Rmult_lt_0_compat.
  destruct d as [|s|r]; simpl; try done.
  - rewrite !Rzero_false by lra. simpl.
    rewrite Rzero_false, !Rneg_false by lra. by destruct s.
  - f_equal. lra.
Qed.

(** X16. Multiplying every weight of the window by an integer c > 0
    multiplies every gathered value by c and selects the same positions:
    the weights are plain multipliers of the raster values. *)
Theorem build_neigh_scale_window (data : Matrix xreal) (window : Matrix Z)
    (c i j : Z) :
  (0 < c)%Z ->
  build_neigh data (scale_window c window) i j
  = map (fun v => fmul v (of_int c)) (build_neigh data window i j).
Proof.
  intros Hc. rewrite !build_neigh_filter, map_map.
  assert (Htest : forall k l,
    neigh_test data (scale_window c window) i j k l
    = neigh_test data window i j k l).
  { intros k l. unfold neigh_test. rewrite window_at_scale.
    change (nrow (scale_window c window)) with (nrow window).
    change (ncol (scale_window c window)) with (ncol window).
    do 2 f_equal.
    destruct (Z.ltb_spec 0 (window_at window k l)),
             (Z.ltb_spec 0 (c * window_at window k l)); try done; nia. }
  unfold selected.
  change (window_positions (scale_window c window))
    with (window_positions window).
  rewrite (List.filter_ext _ (fun kl => neigh_test data window i j kl.1 kl.2))
    by (intros [k l]; apply Htest).
  apply map_ext_in. intros [k l] Hkl. simpl.
  apply List.filter_In in Hkl as [_ Ht]. simpl in Ht.
  apply neigh_test_true in Ht as (_ & _ & _ & _ & Hw & _).
  unfold neigh_value. rewrite window_at_scale.
  change (nrow (scale_window c window)) with (nrow window).
  change (ncol (scale_window c window)) with (ncol window).
  xunfold. by apply xmul_scale.
Qed.

(** X17. A window with fewer than two positions of positive weight (a
    1 x 1 window, an empty one, one without positive weight) turns every
    output into NaN. *)
Theorem sparse_window_all_nan (data : Matrix xreal) (window : Matrix Z)
    (variance : xreal) (i j : Z) :
  (length (positive_weights window) <= 1)%nat ->
  (0 <= i < nrow data)%Z -> (0 <= j < ncol data)%Z ->
  exists out,
    bayes_estimator_class data window variance
      !! Z.to_nat (i * ncol data + j) = Some out
    /\ isnan out = true.
Proof.
  intros Hw Hi Hj. eexists. split; [by apply bayes_estimator_class_lookup|].
  unfold estimate_at. destruct (isnan (data_at data i j)) eqn:Hnan.
  - unfold bayes_estimator_pixel. by rewrite Hnan.
  - apply bayes_estimator_pixel_short; [done|].
    pose proof (build_neigh_length_le data window i j). lia.
Qed.

Lemma all_equal_replicate {A} (a : A) (l : list A) :
  (forall x, In x l -> x = a) -> l = replicate (length l) a.
Proof.
  induction l as [|x l IH]; intros Hl; [done|]. simpl.
  rewrite (Hl x) by by left. f_equal. apply IH. intros y Hy. apply Hl.
  by right.
Qed.

(** X18. On a raster holding one value c in every cell, under a window
    whose positive weights all equal w, with c and c * w strictly inside
    the scale and a positive real variance, every cell that gathers two
    neighbours or more gets the transform of c * w: the output is in the
    transformed scale, and c itself does not enter it. *)
Theorem flat_raster_output (data : Matrix xreal) (window : Matrix Z)
    (c r : R) (w i j : Z) :
  0 < r -> 0 < c < 10000 -> 0 < c * IZR w < 10000 ->
  (forall i' j', (0 <= i' < nrow data)%Z -> (0 <= j' < ncol data)%Z ->
     data_at data i' j' = XFin c) ->
  (forall k l, (0 <= k < nrow window)%Z -> (0 <= l < ncol window)%Z ->
     (0 < window_at window k l)%Z -> window_at window k l = w) ->
  (0 <= i < nrow data)%Z -> (0 <= j < ncol data)%Z ->
  (2 <= length (build_neigh data window i j))%nat ->
  bayes_estimator_class data window (XFin r) !! Z.to_nat (i * ncol data + j)
  = Some (XFin (logit_R (c * IZR w))).
Proof.
  intros Hr Hc Hcw Hflat Hw Hi Hj Hlen.
  rewrite bayes_estimator_class_lookup by done. f_equal. unfold estimate_at.
  rewrite (Hflat i j) by done.
  rewrite (all_equal_replicate (XFin (c * IZR w))
             (build_neigh data window i j)).
  - rewrite bayes_estimator_pixel_blend by done.
    apply (spec_blend_constant _ _ _ r (logit_R c)); try done;
      by apply spec_logit_fin.
  - intros v Hv. rewrite build_neigh_filter in Hv. apply in_map_iff in Hv.
    destruct Hv as ([k l] & <- & Hsel). simpl.
    apply list_elem_of_In, elem_of_selected in Hsel as [[Hk Hl] Ht].
    apply neigh_test_true in Ht as (Hi1 & Hj1 & Hi2 & Hj2 & Hpos & _).
    unfold neigh_value. unfold nrow at 1, ncol at 1. rewrite !half_dim.
    rewrite Hflat by (unfold nrow, ncol in *; lia).
    by rewrite (Hw k l).
Qed.

End ExactScan.

(** * Weights that do not count *)

Section Weights.

Context {double : Type} `{DoubleOps double}.

Lemma window_at_clamp (window : Matrix Z) (k l : Z) :
  window_at (clamp_window window) k l = Z.max 0 (window_at window k l).
Proof.
  unfold window_at, mat_at, clamp_window, nrow. simpl.
  apply (map_nth (Z.max 0) (mat_data window) 0).
Qed.

(** X19. Negative weights count as 0: replacing every negative weight of
    the window by 0 changes no gathered neighbour, for any raster and
    cell. *)
Theorem build_neigh_clamp_window (data : Matrix double) (window : Matrix Z)
    (i j : Z) :
  build_neigh data (clamp_window window) i j = build_neigh data window i j.
Proof.
  rewrite !build_neigh_filter. unfold selected.
  change (window_positions (clamp_window window))
    with (window_positions window).
  assert (Htest : forall k l,
    neigh_test data (clamp_window window) i j k l
    = neigh_test data window i j k l).
  { intros k l. unfold neigh_test. rewrite window_at_clamp.
    change (nrow (clamp_window window)) with (nrow window).
    change (ncol (clamp_window window)) with (ncol window).
    do 2 f_equal.
    destruct (Z.ltb_spec 0 (window_at window k l)),
             (Z.ltb_spec 0 (Z.max 0 (window_at window k l))); try done; lia. }
  rewrite (List.filter_ext _ (fun kl => neigh_test data window i j kl.1 kl.2))
    by (intros [k l]; apply Htest).
  apply map_ext_in. intros [k l] Hkl. simpl.
  apply List.filter_In in Hkl as [_ Ht]. simpl in Ht.
  apply neigh_test_true in Ht as (_ & _ & _ & _ & Hw & _).
  unfold neigh_value. rewrite window_at_clamp.
  change (nrow (clamp_window window)) with (nrow window).
  change (ncol (clamp_window window)) with (ncol window).
  by rewrite Z.max_r by lia.
Qed.

Lemma build_neigh_weightless (data : Matrix double) (window : Matrix Z)
    (i j : Z) :
  positive_weights window = [] -> build_neigh data window i j = [].
Proof.
  intros Hw. pose proof (build_neigh_length_le data window i j) as Hlen.
  rewrite Hw in Hlen. destruct (build_neigh data window i j); [done|].
  simpl in Hlen. lia.
Qed.

End Weights.

(** * Binary64: the empty neighbourhood *)

Section Binary64.

Lemma b64_mul_nan_r (x : float) : PrimFloat.mul x PrimFloat.nan = PrimFloat.nan.
Proof.
  apply Prim2SF_inj. rewrite mul_spec.
  change (Prim2SF PrimFloat.nan) with S754_nan.
  unfold SF64mul, SFmul. by destruct (Prim2SF x).
Qed.

Lemma b64_add_nan_r (x : float) : PrimFloat.add x PrimFloat.nan = PrimFloat.nan.
Proof.
  apply Prim2SF_inj. rewrite add_spec.
  change (Prim2SF PrimFloat.nan) with S754_nan.
  unfold SF64add, SFadd. by destruct (Prim2SF x).
Qed.

Lemma b64_mean_nil (prec emax : Z) :
  @mean float (b64_ops_with prec emax) [] = PrimFloat.nan.
Proof. reflexivity. Qed.

(** X20. On binary64, whatever the format of [long double], a cell
    without neighbour gets NaN for every centre value and every variance:
    the mean of no element is 0 / 0, and NaN goes through the blend. *)
Theorem empty_neighbourhood_nan_b64 (prec emax : Z) (p variance : float) :
  @bayes_estimator_pixel float (b64_ops_with prec emax) p [] variance
  = PrimFloat.nan.
Proof.
  unfold bayes_estimator_pixel.
  destruct (@isnan float (b64_ops_with prec emax) p); [done|].
  change (map logit []) with (@nil float). rewrite b64_mean_nil.
  change (@fadd float (b64_ops_with prec emax)) with PrimFloat.add.
  change (@fmul float (b64_ops_with prec emax)) with PrimFloat.mul.
  by rewrite b64_mul_nan_r, b64_add_nan_r.
Qed.

(** X21. On binary64, a window without a positive weight turns every
    output into NaN, whatever the raster, the variance and the format of
    [long double]. *)
Theorem weightless_window_all_nan_b64 (prec emax : Z) (data : Matrix float)
    (window : Matrix Z) (variance : float) (i j : Z) :
  positive_weights window = [] ->
  0 <= i < nrow data -> 0 <= j < ncol data ->
  @bayes_estimator_class float (b64_ops_with prec emax) data window variance
    !! Z.to_nat (i * ncol data + j)
  = Some PrimFloat.nan.
Proof.
  intros Hw Hi Hj.
  rewrite (@bayes_estimator_class_lookup float (b64_ops_with prec emax))
    by done.
  f_equal. unfold estimate_at.
  rewrite (@build_neigh_weightless float (b64_ops_with prec emax)) by done.
  unfold bayes_estimator_pixel.
  destruct (@isnan float (b64_ops_with prec emax) _); [done|].
  change (map logit []) with (@nil float). rewrite b64_mean_nil.
  change (@fadd float (b64_ops_with prec emax)) with PrimFloat.add.
  change (@fmul float (b64_ops_with prec emax)) with PrimFloat.mul.
  by rewrite b64_mul_nan_r, b64_add_nan_r.
Qed.

End Binary64.

(** * The further properties at concrete inputs *)

(** The centre of a 3 x 3 raster of 5000 under the plus-shaped window. *)
Lemma build_neigh_interior_witness :
  build_neigh (mkMatrix 3 3 (replicate 9 (XFin 5000))) window_plus 1 1
  = map (fun kl =>
           fmul (data_at (mkMatrix 3 3 (replicate 9 (XFin 5000)))
                         (1 + kl.1 - nrow window_plus `div` 2)
                         (1 + kl.2 - ncol window_plus `div` 2))
                (of_int (window_at window_plus kl.1 kl.2)))
        (positive_weights window_plus).
Proof.
  apply build_neigh_interior. intros k l Hk Hl.
  unfold nrow, ncol in Hk, Hl. simpl in Hk, Hl.
  assert (Ek : k = 0 \/ k = 1 \/ k = 2) by lia.
  assert (El : l = 0 \/ l = 1 \/ l = 2) by lia.
  destruct Ek as [->|[->| ->]], El as [->|[->| ->]];
    (split; [split; [apply Z.leb_le|apply Z.ltb_lt]; reflexivity|]);
    (split; [split; [apply Z.leb_le|apply Z.ltb_lt]; reflexivity|]);
    reflexivity.
Defined.

(** Two rasters of one row that differ in the second cell only, under a
    1 x 1 window centred on the first cell. *)
Lemma build_neigh_local_witness :
  build_neigh (mkMatrix 1 2 [XFin 5000; XFin 1]) (mkMatrix 1 1 [1]) 0 0
  = build_neigh (mkMatrix 1 2 [XFin 5000; XFin 2]) (mkMatrix 1 1 [1]) 0 0.
Proof.
  apply build_neigh_local.
  split; [reflexivity|]. split; [reflexivity|]. intros k l Hk Hl.
  unfold nrow, ncol in Hk, Hl. simpl in Hk, Hl.
  assert (k = 0) as -> by lia. assert (l = 0) as -> by lia.
  reflexivity.
Defined.

Lemma bayes_estimator_class_local_witness :
  bayes_estimator_class (mkMatrix 1 2 [XFin 5000; XFin 1])
      (mkMatrix 1 1 [1]) (XFin 1)
    !! Z.to_nat (0 * ncol (mkMatrix 1 2 [XFin 5000; XFin 1]) + 0)
  = bayes_estimator_class (mkMatrix 1 2 [XFin 5000; XFin 2])
        (mkMatrix 1 1 [1]) (XFin 1)
      !! Z.to_nat (0 * ncol (mkMatrix 1 2 [XFin 5000; XFin 2]) + 0).
Proof.
  apply bayes_estimator_class_local.
  - unfold nrow; simpl; lia.
  - unfold ncol; simpl; lia.
  - reflexivity.
  - split; [reflexivity|]. split; [reflexivity|]. intros k l Hk Hl.
    unfold nrow, ncol in Hk, Hl. simpl in Hk, Hl.
    assert (k = 0) as -> by lia. assert (l = 0) as -> by lia.
    reflexivity.
Defined.

(** The scan and the pass on the raster with the hole. *)
Lemma build_neigh_checked_ok_witness :
  build_neigh_checked raster_hole window_ones 0 0
  = Ok (build_neigh raster_hole window_ones 0 0).
Proof.
  apply build_neigh_checked_ok.
  - reflexivity.
  - reflexivity.
  - lia.
  - lia.
  - unfold nrow; simpl; lia.
  - unfold ncol; simpl; lia.
Defined.

Lemma bayes_estimator_class_checked_ok_witness :
  bayes_estimator_class_checked raster_hole window_ones (XFin 1)
  = Ok (bayes_estimator_class raster_hole window_ones (XFin 1)).
Proof.
  apply bayes_estimator_class_checked_ok.
  - reflexivity.
  - reflexivity.
  - unfold nrow; simpl; lia.
  - unfold ncol; simpl; lia.
  - unfold nrow, ncol; simpl; lia.
Defined.

(** A raster of 65536 x 32768 cells, 2^31 in all. *)
Lemma bayes_estimator_class_checked_overflow_witness :
  bayes_estimator_class_checked
    (mkMatrix (Z.to_nat 65536) (Z.to_nat 32768) (@nil xreal))
    window_ones (XFin 1)
  = Fault SignedOverflow.
Proof.
  apply bayes_estimator_class_checked_overflow.
  unfold nrow, ncol. simpl mat_nrow. simpl mat_ncol.
  rewrite !Z2Nat.id by lia. lia.
Defined.

(** The centre 5000 between the neighbours 2500 and 7500, variance 1. *)
Lemma bayes_estimator_pixel_finite_iff_witness :
  isfinite (bayes_estimator_pixel (XFin 5000) [XFin 2500; XFin 7500] (XFin 1))
  = true
  <-> in_scale (XFin 5000) /\ (2 <= length [XFin 2500; XFin 7500])%nat
      /\ Forall in_scale [XFin 2500; XFin 7500].
Proof.
  apply bayes_estimator_pixel_finite_iff. lra.
Defined.

Lemma bayes_estimator_pixel_between_witness :
  let x := logit_R (to_R (XFin 5000)) in
  let m := mean_R (map logit_R (map to_R [XFin 2500; XFin 7500])) in
  exists y,
    bayes_estimator_pixel (XFin 5000) [XFin 2500; XFin 7500] (XFin 1)
    = XFin y
    /\ (Rmin x m <= y <= Rmax x m)%R.
Proof.
  apply bayes_estimator_pixel_between.
  - lra.
  - simpl; lra.
  - simpl; lia.
  - repeat constructor; simpl; lra.
Defined.

Lemma bayes_estimator_pixel_monotone_witness :
  exists y y',
    bayes_estimator_pixel (XFin 4000) [XFin 2500; XFin 7500] (XFin 1)
    = XFin y
    /\ bayes_estimator_pixel (XFin 6000) [XFin 2500; XFin 7500] (XFin 1)
       = XFin y'
    /\ (y <= y')%R.
Proof.
  apply bayes_estimator_pixel_monotone.
  - lra.
  - simpl; lra.
  - simpl; lra.
  - simpl; lra.
  - simpl; lia.
  - repeat constructor; simpl; lra.
Defined.

Lemma bayes_estimator_pixel_constant_witness :
  bayes_estimator_pixel (XFin 5000) (replicate 3 (XFin 2500)) (XFin 1)
  = spec_logit (XFin 2500).
Proof.
  apply bayes_estimator_pixel_constant.
  - lra.
  - simpl; lra.
  - simpl; lra.
  - lia.
Defined.

Lemma zero_variance_keeps_centre_witness :
  bayes_estimator_pixel (XFin 5000) [XFin 2500; XFin 7500] (XFin 0)
  = spec_logit (XFin 5000).
Proof.
  apply (zero_variance_keeps_centre (XFin 5000) [XFin 2500; XFin 7500]
           (XFin 2500) (XFin 7500)).
  - repeat constructor; simpl; lra.
  - simpl; tauto.
  - simpl; tauto.
  - intros E. injection E as E. lra.
Defined.

Lemma zero_variance_flat_is_nan_witness :
  isnan (bayes_estimator_pixel (XFin 5000) (replicate 3 (XFin 2500)) (XFin 0))
  = true.
Proof.
  apply zero_variance_flat_is_nan. simpl; lra.
Defined.

(** The first neighbour of the corner of the raster with the hole. *)
Lemma build_neigh_no_nan_witness : isnan (XFin (5000 * 1)) = false.
Proof.
  apply (build_neigh_no_nan raster_hole window_ones 0 0).
  left. reflexivity.
Defined.

(** The scaling scenario, weights doubled. *)
Lemma build_neigh_scale_window_witness :
  build_neigh raster_quarter (scale_window 2 window_row) 0 0
  = map (fun v => fmul v (of_int 2))
        (build_neigh raster_quarter window_row 0 0).
Proof.
  apply build_neigh_scale_window. lia.
Defined.

(** The raster with the hole under a 1 x 1 window. *)
Lemma sparse_window_all_nan_witness :
  exists out,
    bayes_estimator_class raster_hole (mkMatrix 1 1 [1]) (XFin 1)
      !! Z.to_nat (0 * ncol raster_hole + 0) = Some out
    /\ isnan out = true.
Proof.
  apply sparse_window_all_nan.
  - vm_compute. lia.
  - unfold nrow; simpl; lia.
  - unfold ncol; simpl; lia.
Defined.

(** The 2 x 2 raster of 5000 under the plus-shaped window. *)
Lemma flat_raster_output_witness :
  bayes_estimator_class raster_flat window_plus (XFin 1)
    !! Z.to_nat (0 * ncol raster_flat + 0)
  = Some (XFin (logit_R (5000 * IZR 1))).
Proof.
  apply flat_raster_output.
  - lra.
  - lra.
  - lra.
  - intros i' j' Hi Hj. unfold nrow, ncol in Hi, Hj. simpl in Hi, Hj.
    assert (Ei : i' = 0 \/ i' = 1) by lia.
    assert (Ej : j' = 0 \/ j' = 1) by lia.
    destruct Ei as [->| ->], Ej as [->| ->]; reflexivity.
  - intros k l Hk Hl. unfold nrow, ncol in Hk, Hl. simpl in Hk, Hl.
    assert (Ek : k = 0 \/ k = 1 \/ k = 2) by lia.
    assert (El : l = 0 \/ l = 1 \/ l = 2) by lia.
    destruct Ek as [->|[->| ->]], El as [->|[->| ->]]; vm_compute;
      (reflexivity || discriminate).
  - unfold nrow; simpl; lia.
  - unfold ncol; simpl; lia.
  - vm_compute. lia.
Defined.

(** The binary64 raster with the hole under a window of weight 0. *)
Lemma weightless_window_all_nan_b64_witness :
  @bayes_estimator_class float (b64_ops_with 53 1024) raster_hole_b64
      (mkMatrix 1 1 [0]) 1%float
    !! Z.to_nat (0 * ncol raster_hole_b64 + 0)
  = Some PrimFloat.nan.
Proof.
  apply weightless_window_all_nan_b64.
  - reflexivity.
  - unfold nrow; simpl; lia.
  - unfold ncol; simpl; lia.
Defined.

(** The raster with the hole: nine slots, row by row. *)
Lemma bayes_estimator_class_row_major_witness :
  exists out,
    bayes_estimator_class_checked raster_hole window_ones (XFin 1) = Ok out
    /\ Z.of_nat (length out) = nrow raster_hole * ncol raster_hole
    /\ forall i j, 0 <= i < nrow raster_hole -> 0 <= j < ncol raster_hole ->
         out !! Z.to_nat (i * ncol raster_hole + j)
         = Some (bayes_estimator_pixel (data_at raster_hole i j)
                   (build_neigh raster_hole window_ones i j) (XFin 1)).
Proof.
  apply bayes_estimator_class_row_major.
  - reflexivity.
  - reflexivity.
  - unfold nrow; simpl; lia.
  - unfold ncol; simpl; lia.
  - unfold nrow, ncol; simpl; lia.
Defined.
